(** * Bank customer segmentation dashboard: the view pipeline of [app.py]

    A shallow embedding of the filtering, pagination and aggregation code of
    [src/app.py] (lines 101-168, 286-293, 342-393), with the properties the
    specification states about it.

    Conventions of the embedding.
    - A numeric cell of the data frame is an exact rational or the missing
      marker ([None], pandas' NaN): [pd.to_numeric(..., errors="coerce")]
      (line 112) produces exactly these.  Binary floating point rounding is
      not modelled; arithmetic is exact.
    - Two choices the source leaves to NumPy are left open here as well, as
      the fields of [Numerics]: the order a descending [sort_values] gives to
      entries with equal keys (the default [kind="quicksort"] is not
      stable), and the way [round(2)] goes when a value is halfway between
      two hundredths.  Every property is proved for every such choice.
    - pandas reductions skip missing cells ([skipna=True]); comparisons with a
      missing cell are false.
    - The widgets of the sidebar are inputs: their current values are the
      fields of [FilterState]. *)

From Stdlib Require Import QArith Qcanon Lqa.
From Stdlib Require Import Ascii.
From stdpp Require Import base tactics option numbers strings pretty sorting list.

Local Open Scope Z_scope.
Local Open Scope Qc_scope.

(** ** Numeric cells *)

Definition cell : Type := option Qc.

Definition num (z : Z) : Qc := Qc_of_Z z.
Definition frac (a : Z) (b : positive) : Qc := Q2Qc (a # b).

Definition cell_mul (a b : cell) : cell :=
  match a, b with
  | Some x, Some y => Some (x * y)
  | _, _ => None
  end.

Definition cell_sub (a b : cell) : cell :=
  match a, b with
  | Some x, Some y => Some (x - y)
  | _, _ => None
  end.

(** Element-wise division of a column by a scalar that is not zero (the only
    use, line 293, is guarded by [rng == 0]). *)
Definition cell_div (a b : cell) : cell :=
  match a, b with
  | Some x, Some y => Some (x / y)
  | _, _ => None
  end.

(** [>=] on cells: false as soon as one side is missing. *)
Definition cell_ge (a b : cell) : bool :=
  match a, b with
  | Some x, Some y => bool_decide (y ≤ x)
  | _, _ => false
  end.

(** The result of a scalar division of two numpy numbers: dividing by zero
    does not raise, it gives NaN or an infinity. *)
Inductive fval : Type :=
  | Fin (q : Qc)
  | NaN
  | Inf (negative : bool).

Global Instance fval_eq_dec : EqDecision fval.
Proof. solve_decision. Defined.

Definition fdiv (a b : Qc) : fval :=
  if decide (b = 0) then
    if decide (a = 0) then NaN else Inf (bool_decide (a < 0))
  else Fin (a / b).

(** [Series.sum()]: missing cells are skipped, the empty sum is 0. *)
Fixpoint nansum (col : list cell) : Qc :=
  match col with
  | [] => 0
  | Some x :: col' => x + nansum col'
  | None :: col' => nansum col'
  end.

(** The cells that are present, in order ([dropna]). *)
Definition dropna {A} (col : list (option A)) : list A := omap id col.

(** [Series.mean()]: the mean of the present cells, missing when none is. *)
Definition nanmean (col : list cell) : cell :=
  match dropna col with
  | [] => None
  | x :: xs => Some (nansum col / num (Z.of_nat (length (x :: xs))))
  end.

(** What the source leaves to NumPy.
    - [argsort_rank keys i]: the sort behind [sort_values] (lines 139, 261,
      262, 276, 294, 371) is the default [kind="quicksort"], which is not
      stable; the order it gives to equal keys is not fixed by the source.
      Given the array of keys, [argsort_rank] ranks its positions: positions
      holding equal keys come out by ascending rank (and in their order,
      when their ranks are equal too).
    - [half_up x]: [round(2)] (line 351) rounds a binary double, and a value
      written halfway between two hundredths is stored a little below or
      above it.  [half_up x] tells whether [x], exactly halfway between two
      integers, is taken to the upper one. *)
Class Numerics : Type := mkNumerics {
  argsort_rank : list Qc → nat → nat;
  half_up : Qc → bool
}.

(** One such choice: equal keys stay in order, halves go to the even
    neighbour.  It serves to run the definitions on sample data. *)
Definition stable_half_even : Numerics :=
  {| argsort_rank := λ _ i, i;
     half_up := λ x, Z.odd (Qnum (this x) / Zpos (Qden (this x))) |}.

(** [round(2)]: numpy scales by 100, rounds to the nearest integer and
    scales back. *)
Definition rint {np : Numerics} (x : Qc) : Z :=
  let n := Qnum (this x) in
  let d := Zpos (Qden (this x)) in
  let f := (n / d)%Z in
  let r := (n mod d)%Z in
  match (2 * r ?= d)%Z with
  | Lt => f
  | Gt => (f + 1)%Z
  | Eq => if half_up x then (f + 1)%Z else f
  end.

Definition round2 {np : Numerics} (x : Qc) : Qc := num (rint (x * num 100)) / num 100.

Definition cell_round2 {np : Numerics} (a : cell) : cell := round2 <$> a.



(** ** Sorting and de-duplication *)

Section Sorting.
Context {A : Type}.

(** Insertion into a sorted list, before the first element that is not
    smaller: the sort below is stable. *)
Fixpoint insert_sorted (leb : A → A → bool) (x : A) (l : list A) : list A :=
  match l with
  | [] => [x]
  | y :: l' => if leb x y then x :: y :: l' else y :: insert_sorted leb x l'
  end.

Fixpoint stable_sort (leb : A → A → bool) (l : list A) : list A :=
  match l with
  | [] => []
  | x :: l' => insert_sorted leb x (stable_sort leb l')
  end.

(** How a comparison relates two entries under an order [R]: an input whose
    earlier and later entries are all related this way comes out of
    [stable_sort] ordered by [R]. *)
Definition decides (leb : A → A → bool) (R : relation A) : relation A :=
  λ x y, if leb x y then R x y else R y x.

(** [Series.unique()]: the distinct values in order of first appearance. *)
Fixpoint unique `{EqDecision A} (l : list A) : list A :=
  match l with
  | [] => []
  | x :: l' => x :: filter (λ y, y ≠ x) (unique l')
  end.

(** [isin]: a missing value is in no selection. *)
Definition isin `{EqDecision A} (v : option A) (sel : list A) : bool :=
  match v with
  | Some x => bool_decide (x ∈ sel)
  | None => false
  end.

End Sorting.

Section DescendingSort.
Context {A : Type}.

(** [sort_values(key, ascending=False)]: the entries that have a key come
    first, by descending key, and the entries with a missing key come last,
    in the order they had.  Among entries with equal keys the order is the
    sort's own: that of the ranks [argsort_rank] gives to their positions
    in the array of the present keys. *)
Definition keyed (key : A → cell) (l : list A) : list (Qc * A) :=
  omap (λ a, (λ x, (x, a)) <$> key a) l.

Definition desc_leb (a b : nat * (Qc * A)) : bool :=
  bool_decide (b.2.1 < a.2.1) || (bool_decide (a.2.1 = b.2.1) && (a.1 <=? b.1)%nat).

Definition sort_values_desc {np : Numerics} (key : A → cell) (l : list A) : list A :=
  let present := keyed key l in
  let ranked := imap (λ i e, (argsort_rank present.*1 i, e)) present in
  let missing := filter (λ a, ¬ is_Some (key a)) l in
  (stable_sort desc_leb ranked).*2.*2 ++ missing.
End DescendingSort.

(** Python's [sorted] on city names and on cluster ids. *)
Definition sorted_str (l : list string) : list string := stable_sort String.leb l.
Definition sorted_Z (l : list Z) : list Z := stable_sort Z.leb l.

(** [Series.median()] over the present cells. *)
Definition median (col : list cell) : cell :=
  let s := stable_sort (λ x y, bool_decide (x ≤ y)) (dropna col) in
  let n := length s in
  if decide (n = 0%nat) then None
  else if Nat.even n then
    match s !! (n / 2 - 1)%nat, s !! (n / 2)%nat with
    | Some a, Some b => Some ((a + b) / num 2)
    | _, _ => None
    end
  else s !! (n / 2)%nat.

(** Maximum and minimum of the present cells, missing when none is. *)
Definition qmax (x y : Qc) : Qc := if decide (x ≤ y) then y else x.
Definition qmin (x y : Qc) : Qc := if decide (x ≤ y) then x else y.

Definition col_max (col : list cell) : cell :=
  match dropna col with
  | [] => None
  | x :: xs => Some (foldr qmax x xs)
  end.

Definition col_min (col : list cell) : cell :=
  match dropna col with
  | [] => None
  | x :: xs => Some (foldr qmin x xs)
  end.

(** ** The data frame (lines 101-115) *)

(** One row of [top_kpis.csv] after the numeric coercion of lines 110-112.
    [extra] holds the cells of the numeric columns beyond the required ones. *)
Record Row : Type := mkRow {
  CustLocation : option string;
  Cluster : option Z;
  CustomerCount : cell;
  AvgAge : cell;
  AvgRecency : cell;
  AvgFrequency : cell;
  AvgAvgMonetary : cell;
  AvgTotalMonetary : cell;
  extra : list cell
}.

Record DataFrame : Type := mkFrame {
  columns : list string;
  rows : list Row
}.

Global Instance Row_eq_dec : EqDecision Row.
Proof. solve_decision. Defined.

Definition required_cols : list string :=
  ["CustLocation"; "Cluster"; "CustomerCount"; "AvgAge"; "AvgRecency";
   "AvgFrequency"; "AvgAvgMonetary"; "AvgTotalMonetary"].

(** Lines 114-115: the options offered by the two multiselects. *)
Definition all_cities (df : DataFrame) : list string :=
  sorted_str (unique (dropna (CustLocation <$> rows df))).

Definition all_clusters (df : DataFrame) : list Z :=
  sorted_Z (unique (dropna (Cluster <$> rows df))).

(** ** Sidebar state (lines 120-133, 150) *)

(** [topn] is [None] when the Top-N checkbox is off; the slider gives at least
    3, so a present value is positive.  [page_size] comes from a slider over
    5..15.  [page_entry] is what the user typed into the page box. *)
Record FilterState : Type := mkState {
  city_sel : list string;
  cluster_sel : list Z;
  topn : option positive;
  page_size : positive;
  show_all : bool;
  page_entry : Z
}.

(** ** Base filter and Top-N (lines 136-142) *)

Definition in_selection (st : FilterState) (r : Row) : bool :=
  isin (CustLocation r) (city_sel st) && isin (Cluster r) (cluster_sel st).

Definition in_city (c : string) (r : Row) : bool :=
  bool_decide (CustLocation r = Some c).

(** The named cities of a frame in order of first appearance. *)
Definition cities_of (rs : list Row) : list string :=
  unique (dropna (CustLocation <$> rs)).

(** [groupby("CustLocation")["CustomerCount"].sum()]: one entry per named
    city, keys ascending, rows without a city dropped. *)
Definition city_total (rs : list Row) (c : string) : Qc :=
  nansum (CustomerCount <$> filter (λ r, in_city c r) rs).

Definition groupby_city_sum (rs : list Row) : list (string * Qc) :=
  (λ c, (c, city_total rs c)) <$> sorted_str (cities_of rs).

Definition city_totals_all {np : Numerics} (rs : list Row) : list (string * Qc) :=
  sort_values_desc (λ e, Some e.2) (groupby_city_sum rs).

Definition keep_cities {np : Numerics} (n : positive) (rs : list Row) : list string :=
  fst <$> take (Pos.to_nat n) (city_totals_all rs).

Definition selected (df : DataFrame) (st : FilterState) : list Row :=
  filter (λ r, in_selection st r) (rows df).

Definition fdf_base {np : Numerics} (df : DataFrame) (st : FilterState) : list Row :=
  let base := selected df st in
  match topn st with
  | Some n => filter (λ r, isin (CustLocation r) (keep_cities n base)) base
  | None => base
  end.

(** Stated from the specification's words, for comparison with [fdf_base]:
    cities ranked by descending total, ties in the order in which the cities
    first appear in the rows (a stable sort of the cities in that order);
    the rows of the first [n] cities are kept. *)
Definition first_appearance_ranking (rs : list Row) : list (string * Qc) :=
  stable_sort (λ a b, bool_decide (b.2 ≤ a.2))
    ((λ c, (c, city_total rs c)) <$> cities_of rs).

Definition first_appearance_top_n (n : positive) (rs : list Row) : list Row :=
  filter (λ r, isin (CustLocation r)
                 (fst <$> take (Pos.to_nat n) (first_appearance_ranking rs))) rs.

(** ** Pagination (lines 144-154) *)

(** [math.ceil(n / d)] for a positive [d]. *)
Definition ceil_div (n d : nat) : nat := ((n + d - 1) / d)%nat.

(** [st.number_input(min_value, max_value, value)] (line 150).  The source
    passes the bounds and the initial value and does no arithmetic of its
    own on the result.  The widget hands back the number held for it when
    that lies within the bounds; a number outside them is not kept (the box
    accepts none, and a widget whose bounds have changed starts again), and
    the widget hands back [value]. *)
Definition number_input (min_value max_value value entry : Z) : Z :=
  if (min_value <=? entry)%Z && (entry <=? max_value)%Z then entry else value.

(** What lines 144-154 bind.  With [show_all] no page count and no page are
    computed: [total_pages] and [page] exist in the other branch only. *)
Record View : Type := mkView {
  fdf : list Row;
  current_cities : list string;
  total_pages : option nat;
  page : option nat
}.

(** The number of pages a view is spread over, in the specification's
    sense: the count of line 149 where pagination computed one, and a
    single page where "show all" put every row on display. *)
Definition page_count (v : View) : nat := default 1%nat (total_pages v).

(** [sorted(fdf_base["CustLocation"].unique().tolist())].  The frame that is
    paginated is [fdf_base], whose rows all have a city, so the distinct
    values are names. *)
Definition candidate_cities (base : list Row) : list string :=
  sorted_str (cities_of base).

Definition pages_of (base : list Row) (size : positive) : nat :=
  Nat.max 1 (ceil_div (length (candidate_cities base)) (Pos.to_nat size)).

Definition page_slice (base : list Row) (size : positive) (p : nat) : list string :=
  let start := ((p - 1) * Pos.to_nat size)%nat in
  take (Pos.to_nat size) (drop start (candidate_cities base)).

Definition page_rows (base : list Row) (size : positive) (p : nat) : list Row :=
  filter (λ r, isin (CustLocation r) (page_slice base size p)) base.

Definition paginate (base : list Row) (st : FilterState) : View :=
  if show_all st then
    {| fdf := base;
       current_cities := sorted_str (cities_of base);
       total_pages := None;
       page := None |}
  else
    let total := pages_of base (page_size st) in
    let p := Z.to_nat (number_input 1 (Z.of_nat total) 1 (page_entry st)) in
    {| fdf := page_rows base (page_size st) p;
       current_cities := page_slice base (page_size st) p;
       total_pages := Some total;
       page := Some p |}.

Definition view {np : Numerics} (df : DataFrame) (st : FilterState) : View :=
  paginate (fdf_base df st) st.

(** ** KPI row (lines 159-168) *)

(** Python's [int()] on a number: truncation towards zero. *)
Definition int_of (x : Qc) : Z := (Qnum (this x) ÷ Zpos (Qden (this x)))%Z.

Definition total_customers (df : DataFrame) : Z :=
  int_of (nansum (CustomerCount <$> rows df)).

Definition city_count (df : DataFrame) : nat :=
  length (unique (dropna (CustLocation <$> rows df))).

Definition segment_count (df : DataFrame) : nat :=
  length (unique (dropna (Cluster <$> rows df))).

Definition weighted_spend (df : DataFrame) : fval :=
  fdiv (nansum ((λ r, cell_mul (AvgTotalMonetary r) (CustomerCount r)) <$> rows df))
       (nansum (CustomerCount <$> rows df)).

(** The plain sum of a quantity over rows, a missing cell counting as 0: the
    sums of the specification's formula. *)
Definition value (c : cell) : Qc := default 0 c.

Definition qsum (f : Row → Qc) (rs : list Row) : Qc :=
  foldr (λ r acc, f r + acc) 0 rs.

(** ** City profile and its normalisation (lines 286-293) *)

Module Prof.
Record t : Type := mk {
  CustLocation : string;
  AvgFrequency : cell;
  AvgTotalMonetary : cell;
  AvgRecency : cell
}.

Global Instance eq_dec : EqDecision t.
Proof. solve_decision. Defined.
End Prof.

(** [groupby("CustLocation")[metric_cols].mean().reset_index()] *)
Definition city_profile (rs : list Row) : list Prof.t :=
  (λ c, let g := filter (λ r, in_city c r) rs in
        {| Prof.CustLocation := c;
           Prof.AvgFrequency := nanmean (AvgFrequency <$> g);
           Prof.AvgTotalMonetary := nanmean (AvgTotalMonetary <$> g);
           Prof.AvgRecency := nanmean (AvgRecency <$> g) |})
  <$> sorted_str (cities_of rs).

(** One pass of the loop of lines 291-293 on the column [col], read at the
    entry [v]: [0.5 if rng == 0 else (v - min) / rng]. *)
Definition normalize (col : list cell) (v : cell) : cell :=
  let rng := cell_sub (col_max col) (col_min col) in
  if decide (rng = Some 0) then Some (frac 1 2)
  else cell_div (cell_sub v (col_min col)) rng.

Definition prof_norm (cp : list Prof.t) : list Prof.t :=
  (λ p, {| Prof.CustLocation := Prof.CustLocation p;
           Prof.AvgFrequency := normalize (Prof.AvgFrequency <$> cp) (Prof.AvgFrequency p);
           Prof.AvgTotalMonetary := normalize (Prof.AvgTotalMonetary <$> cp) (Prof.AvgTotalMonetary p);
           Prof.AvgRecency := normalize (Prof.AvgRecency <$> cp) (Prof.AvgRecency p) |})
  <$> cp.

(** The three columns of [metric_cols] (line 286), to speak of the loop of
    lines 291-293 one column at a time. *)
Inductive metric : Type := Frequency | Spend | Recency.

Definition row_get (m : metric) (r : Row) : cell :=
  match m with
  | Frequency => AvgFrequency r
  | Spend => AvgTotalMonetary r
  | Recency => AvgRecency r
  end.

Definition prof_get (m : metric) (p : Prof.t) : cell :=
  match m with
  | Frequency => Prof.AvgFrequency p
  | Spend => Prof.AvgTotalMonetary p
  | Recency => Prof.AvgRecency p
  end.

(** ** Segment summary (lines 342-352) *)

Module Seg.
Record t : Type := mk {
  Cluster : Z;
  CustomerCount : Qc;
  AvgAge : cell;
  AvgFrequency : cell;
  AvgTotalMonetary : cell;
  AvgRecency : cell
}.

Global Instance eq_dec : EqDecision t.
Proof. solve_decision. Defined.
End Seg.

Definition in_cluster (k : Z) (r : Row) : bool :=
  bool_decide (Cluster r = Some k).

Definition clusters_of (rs : list Row) : list Z :=
  sorted_Z (unique (dropna (Cluster <$> rs))).

Definition seg_summary {np : Numerics} (rs : list Row) : list Seg.t :=
  (λ k, let g := filter (λ r, in_cluster k r) rs in
        {| Seg.Cluster := k;
           Seg.CustomerCount := round2 (nansum (CustomerCount <$> g));
           Seg.AvgAge := cell_round2 (nanmean (AvgAge <$> g));
           Seg.AvgFrequency := cell_round2 (nanmean (AvgFrequency <$> g));
           Seg.AvgTotalMonetary := cell_round2 (nanmean (AvgTotalMonetary <$> g));
           Seg.AvgRecency := cell_round2 (nanmean (AvgRecency <$> g)) |})
  <$> clusters_of rs.

(** Stated from the specification's words, for comparison with [nanmean]:
    the unweighted mean of the values that contribute. *)
Definition unweighted_mean (xs : list Qc) : cell :=
  match xs with
  | [] => None
  | _ :: _ => Some (foldr Qcplus 0 xs / num (Z.of_nat (length xs)))
  end.

(** ** Strategy suggestions (lines 367-380) *)

Inductive bucket : Type := Premium | ValueAdd | CrossSell | ReEngagement.

Global Instance bucket_eq_dec : EqDecision bucket.
Proof. solve_decision. Defined.

(** The sentence appended for each bucket, after the cluster id. *)
Definition bucket_text (b : bucket) : string :=
  match b with
  | Premium => "Premium offers & loyalty — high spend and activity."
  | ValueAdd => "Value‑add bundles to sustain high spend."
  | CrossSell => "Cross‑sell bundles — frequent but mid spend."
  | ReEngagement => "Re‑engagement & onboarding nudges — build activity."
  end.

(** One entry of [recs]: the cluster id and the bucket whose sentence the
    f-string of lines 374-380 appends to it. *)
Record suggestion : Type := mkSuggestion { cid : Z; tag : bucket }.

Global Instance suggestion_eq_dec : EqDecision suggestion.
Proof. solve_decision. Defined.

Definition classify (med_spend med_freq : cell) (row : Seg.t) : suggestion :=
  {| cid := Seg.Cluster row;
     tag :=
       if cell_ge (Seg.AvgTotalMonetary row) med_spend
          && cell_ge (Seg.AvgFrequency row) med_freq then Premium
       else if cell_ge (Seg.AvgTotalMonetary row) med_spend then ValueAdd
       else if cell_ge (Seg.AvgFrequency row) med_freq then CrossSell
       else ReEngagement |}.

Definition recs {np : Numerics} (summary : list Seg.t) : list suggestion :=
  match summary with
  | [] => []
  | _ :: _ =>
      let med_spend := median (Seg.AvgTotalMonetary <$> summary) in
      let med_freq := median (Seg.AvgFrequency <$> summary) in
      classify med_spend med_freq <$> sort_values_desc Seg.AvgTotalMonetary summary
  end.

(** The order a descending [sort_values] leaves: [a] may stand before [b]
    when [b]'s key is missing, or both keys are present and [a]'s is not the
    smaller. *)
Definition key_before {A} (key : A → cell) (a b : A) : Prop :=
  match key b, key a with
  | None, _ => True
  | Some y, Some x => y ≤ x
  | Some _, None => False
  end.

(** What a median of the present cells of a column is: the middle of their
    ascending arrangement, the mean of the two middle ones when they are
    even in number, and missing when there is none. *)
Definition is_median (col : list cell) (m : cell) : Prop :=
  ∃ s, s ≡ₚ dropna col ∧ StronglySorted Qcle s ∧
       let n := length s in
       if decide (n = 0%nat) then m = None
       else if Nat.even n then
         ∃ a b, s !! (n / 2 - 1)%nat = Some a ∧ s !! (n / 2)%nat = Some b ∧
                m = Some ((a + b) / num 2)
       else ∃ a, s !! (n / 2)%nat = Some a ∧ m = Some a.

(** ** Download (lines 392-393) *)

(** What [fdf.to_csv(index=False)] writes: the header line, then one record
    per row of [fdf]. *)
Record Csv : Type := mkCsv {
  header : list string;
  records : list Row
}.

Definition csv {np : Numerics} (df : DataFrame) (st : FilterState) : Csv :=
  {| header := columns df; records := fdf (view df st) |}.

(** ** One render cycle *)

Record Dashboard : Type := mkDashboard {
  shown : View;
  kpi_total_customers : Z;
  kpi_cities : nat;
  kpi_segments : nat;
  kpi_weighted_spend : fval;
  radar : list Prof.t;
  segments : list Seg.t;
  strategy : list suggestion;
  download : Csv
}.

Definition render {np : Numerics} (df : DataFrame) (st : FilterState) : Dashboard :=
  let v := view df st in
  {| shown := v;
     kpi_total_customers := total_customers df;
     kpi_cities := city_count df;
     kpi_segments := segment_count df;
     kpi_weighted_spend := weighted_spend df;
     radar := prof_norm (city_profile (fdf v));
     segments := seg_summary (fdf v);
     strategy := recs (seg_summary (fdf v));
     download := csv df st |}.

(** ** Banner and required columns (lines 80-83, 101-110) *)

Definition BANNER_CANDIDATES : list string :=
  ["India_map.png"; "india_map.png"; "india.png"; "banner.png"; "map.png"].

(** [next((p for p in BANNER_CANDIDATES if os.path.exists(p)), None)], the
    file system being the predicate [file_exists]. *)
Definition banner_path (file_exists : string → bool) : option string :=
  head (filter (λ p, file_exists p) BANNER_CANDIDATES).

(** [missing = [c for c in required_cols if c not in df.columns]] *)
Definition missing (df : DataFrame) : list string :=
  filter (λ c, c ∉ columns df) required_cols.

(** [num_cols]: the columns that line 112 coerces to numbers. *)
Definition num_cols (df : DataFrame) : list string :=
  filter (λ c, c ∉ ["CustLocation"; "Cluster"]) (columns df).

(** ** Overview tab: pivot, treemap and highlights (lines 218-222, 249, 261-262) *)

(** The key of a row under [groupby(["CustLocation", "Cluster"])]; a row
    with a missing key is in no group. *)
Definition group_key (r : Row) : option (string * Z) :=
  match CustLocation r, Cluster r with
  | Some c, Some k => Some (c, k)
  | _, _ => None
  end.

(** The order of the group keys: by city, then by cluster. *)
Definition pair_leb (a b : string * Z) : bool :=
  match String.compare a.1 b.1 with
  | Lt => true
  | Eq => Z.leb a.2 b.2
  | Gt => false
  end.

Definition group_keys (rs : list Row) : list (string * Z) :=
  stable_sort pair_leb (unique (omap group_key rs)).

Definition group_total (rs : list Row) (ck : string * Z) : Qc :=
  nansum (CustomerCount <$> filter (λ r, group_key r = Some ck) rs).

(** [fdf.groupby(["CustLocation", "Cluster"], as_index=False)["CustomerCount"].sum()]
    (line 249, and again as [mix] on line 316): one line per pair of city and
    cluster that occurs, pairs ascending. *)
Definition treemap_df (rs : list Row) : list (string * Z * Qc) :=
  (λ ck, (ck, group_total rs ck)) <$> group_keys rs.

Definition qtotal (l : list Qc) : Qc := foldr Qcplus 0 l.

(** Line 261: the treemap lines grouped by city and summed, sorted by
    descending total, the first three. *)
Definition city_lead {np : Numerics} (rs : list Row) : list (string * Qc) :=
  let t := treemap_df rs in
  take 3 (sort_values_desc (λ e, Some e.2)
            ((λ c, (c, qtotal (snd <$> filter (λ e, e.1.1 = c) t)))
             <$> sorted_str (unique ((λ e, e.1.1) <$> t)))).

(** Line 262: [fdf.groupby("Cluster")["CustomerCount"].sum().sort_values(ascending=False)] *)
Definition cluster_total (rs : list Row) (k : Z) : Qc :=
  nansum (CustomerCount <$> filter (λ r, in_cluster k r) rs).

Definition seg_mix {np : Numerics} (rs : list Row) : list (Z * Qc) :=
  sort_values_desc (λ e, Some e.2) ((λ k, (k, cluster_total rs k)) <$> clusters_of rs).

(** Lines 218-221: [pivot_table(index="CustLocation", columns="Cluster",
    values="CustomerCount", aggfunc="sum", fill_value=0)].  The index holds
    the cities and the columns the clusters of the groups, both ascending;
    a pair without a group is filled with 0. *)
Definition pivot_index (rs : list Row) : list string :=
  sorted_str (unique (fst <$> group_keys rs)).

Definition pivot_columns (rs : list Row) : list Z :=
  sorted_Z (unique (snd <$> group_keys rs)).

Definition pivot_cell (rs : list Row) (c : string) (k : Z) : Qc :=
  if decide ((c, k) ∈ group_keys rs) then group_total rs (c, k) else 0.

Definition pivot (rs : list Row) : list (string * list Qc) :=
  (λ c, (c, pivot_cell rs c <$> pivot_columns rs)) <$> pivot_index rs.

(** Line 222: [melt(id_vars="CustLocation", var_name="Cluster",
    value_name="CustomerCount")]: column after column, and within a column
    the lines of the table in order. *)
Definition melt (cols : list Z) (table : list (string * list Qc)) :
    list (string * Z * Qc) :=
  mjoin (imap (λ j k, omap (λ line, (λ v, (line.1, k, v)) <$> line.2 !! j) table) cols).

Definition pivot_long (rs : list Row) : list (string * Z * Qc) :=
  melt (pivot_columns rs) (pivot rs).

(** The order [pair_leb] decides. *)
Definition pair_le (a b : string * Z) : Prop :=
  String.le a.1 b.1 ∧ (a.1 = b.1 → (a.2 ≤ b.2)%Z).

(** ** City deep-dive: radar (lines 294-307) and averages (lines 326-328) *)

Definition default_choices {np : Numerics} (pn : list Prof.t) : list string :=
  Prof.CustLocation <$> take 3 (sort_values_desc Prof.AvgTotalMonetary pn).

(** [pick = pick if pick else default_choices], [entry] being what the
    multiselect returns. *)
Definition pick {np : Numerics} (pn : list Prof.t) (entry : list string) : list string :=
  match entry with
  | [] => default_choices pn
  | _ :: _ => entry
  end.

(** The values of one radar trace: the line of the city, closed by its first
    value.  [None] is the [IndexError] of [iloc[0]] on no line. *)
Definition radar_row (pn : list Prof.t) (city : string) : option (list cell) :=
  match filter (λ p, Prof.CustLocation p = city) pn with
  | [] => None
  | p :: _ =>
      let line := [Prof.AvgFrequency p; Prof.AvgTotalMonetary p; Prof.AvgRecency p] in
      Some (line ++ [Prof.AvgFrequency p])
  end.

Definition radar_traces {np : Numerics} (pn : list Prof.t) (entry : list string) :
    option (list (string * list cell)) :=
  mapM (λ city, (λ values, (city, values)) <$> radar_row pn city) (pick pn entry).

(** [fdf.groupby("CustLocation", as_index=False)[["AvgAge", "AvgFrequency",
    "AvgTotalMonetary", "AvgRecency"]].mean()] *)
Definition avg_metrics (rs : list Row) : list (string * list cell) :=
  (λ c, let g := filter (λ r, in_city c r) rs in
        (c, [nanmean (AvgAge <$> g); nanmean (AvgFrequency <$> g);
             nanmean (AvgTotalMonetary <$> g); nanmean (AvgRecency <$> g)]))
  <$> sorted_str (cities_of rs).

(** ** Strategy text (lines 374-382) and data preview (line 390) *)

Definition newline : string := String "010"%char "".

(** [sep.join(parts)] *)
Fixpoint join (sep : string) (parts : list string) : string :=
  match parts with
  | [] => ""
  | [x] => x
  | x :: rest => x +:+ sep +:+ join sep rest
  end.

Definition suggestion_text (s : suggestion) : string :=
  "**Cluster " +:+ pretty (cid s) +:+ "**: " +:+ bucket_text (tag s).

(** Line 382: the bullet list, or the fallback when it is the empty text. *)
Definition strategy_markdown (rs : list suggestion) : string :=
  let text := join newline ((λ r, "- " +:+ suggestion_text r) <$> rs) in
  if decide (text = "") then "No segments in current filter." else text.

(** [sort_values(["CustLocation", "Cluster"])]: by city, then by cluster, a
    missing key after the present ones; rows with equal keys keep their
    order. *)
Definition opt_compare {A} (cmp : A → A → comparison) (a b : option A) : comparison :=
  match a, b with
  | Some x, Some y => cmp x y
  | Some _, None => Lt
  | None, Some _ => Gt
  | None, None => Eq
  end.

Definition row_leb (r1 r2 : Row) : bool :=
  match opt_compare String.compare (CustLocation r1) (CustLocation r2) with
  | Lt => true
  | Eq => match opt_compare Z.compare (Cluster r1) (Cluster r2) with
          | Gt => false
          | _ => true
          end
  | Gt => false
  end.

Definition preview (rs : list Row) : list Row := stable_sort row_leb rs.

(** The order [row_leb] decides: by city, then by cluster, a missing key
    last. *)
Definition opt_le {A} (R : relation A) (a b : option A) : Prop :=
  match a, b with
  | Some x, Some y => R x y
  | _, None => True
  | None, Some _ => False
  end.

Definition row_le (r1 r2 : Row) : Prop :=
  opt_le String.le (CustLocation r1) (CustLocation r2) ∧
  (CustLocation r1 = CustLocation r2 → opt_le Z.le (Cluster r1) (Cluster r2)).

(** ** Frames derived from the loaded one *)

(** The rows [rs] under the columns of [df]. *)
Definition reframe (df : DataFrame) (rs : list Row) : DataFrame :=
  {| columns := columns df; rows := rs |}.

Definition has_city (r : Row) : Prop := is_Some (CustLocation r).

Global Instance has_city_dec r : Decision (has_city r).
Proof. unfold has_city. apply _. Defined.

Definition with_city (df : DataFrame) : list Row := filter has_city (rows df).
Definition without_city (df : DataFrame) : list Row :=
  filter (λ r, ¬ has_city r) (rows df).

(** The sidebar state with the Top-N box ticked and the slider at [n]. *)
Definition limit_to (st : FilterState) (n : positive) : FilterState :=
  {| city_sel := city_sel st; cluster_sel := cluster_sel st; topn := Some n;
     page_size := page_size st; show_all := show_all st;
     page_entry := page_entry st |}.

(** The sidebar state after the user types [p] into the page box with
    "show all" unticked, and after ticking "show all". *)
Definition turn_page (st : FilterState) (p : nat) : FilterState :=
  {| city_sel := city_sel st; cluster_sel := cluster_sel st; topn := topn st;
     page_size := page_size st; show_all := false; page_entry := Z.of_nat p |}.

Definition show_everything (st : FilterState) : FilterState :=
  {| city_sel := city_sel st; cluster_sel := cluster_sel st; topn := topn st;
     page_size := page_size st; show_all := true; page_entry := page_entry st |}.

(** The sidebar as it stands before any interaction: every city and cluster
    selected (lines 121-122), Top-N off (125), ten cities per page (132),
    "show all" off (133), the first page (150). *)
Definition defaults (df : DataFrame) : FilterState :=
  {| city_sel := all_cities df; cluster_sel := all_clusters df;
     topn := None; page_size := 10%positive; show_all := false; page_entry := 1 |}.

(** ** Sample data *)

(** A complete row: age 30 and recency 10 throughout. *)
Definition row (city : string) (k : Z) (count spend freq : Z) : Row :=
  {| CustLocation := Some city; Cluster := Some k;
     CustomerCount := Some (num count);
     AvgAge := Some (num 30); AvgRecency := Some (num 10);
     AvgFrequency := Some (num freq);
     AvgAvgMonetary := Some (num spend);
     AvgTotalMonetary := Some (num spend);
     extra := [] |}.

Definition frame (rs : list Row) : DataFrame :=
  {| columns := required_cols; rows := rs |}.

(** Every city and cluster selected, no Top-N, five cities per page, the
    first page. *)
Definition first_page_of_five (df : DataFrame) : FilterState :=
  {| city_sel := all_cities df; cluster_sel := all_clusters df;
     topn := None; page_size := 5%positive; show_all := false; page_entry := 1 |}.

(** Four cities in the order D, A, B, C; D and A tie on 5 customers, B and C
    on 9. *)
Definition tied_cities : DataFrame :=
  frame [row "D" 0 5 100 2; row "A" 0 5 100 2;
         row "B" 0 9 100 2; row "C" 0 9 100 2].

(** The same rows, A before D. *)
Definition tied_cities_swapped : DataFrame :=
  frame [row "A" 0 5 100 2; row "D" 0 5 100 2;
         row "B" 0 9 100 2; row "C" 0 9 100 2].

(** Three cities; the only row of C has no AvgTotalMonetary. *)
Definition spend_unknown_in_C : list Row :=
  [row "A" 0 10 1 2; row "B" 0 10 3 2;
   {| CustLocation := Some "C"; Cluster := Some 0%Z;
      CustomerCount := Some (num 10);
      AvgAge := Some (num 30); AvgRecency := Some (num 10);
      AvgFrequency := Some (num 2);
      AvgAvgMonetary := None; AvgTotalMonetary := None; extra := [] |}].

(** Two rows of cluster 0, the second without a city. *)
Definition one_row_unnamed : DataFrame :=
  frame [row "A" 0 10 100 2;
         {| CustLocation := None; Cluster := Some 0%Z;
            CustomerCount := Some (num 5);
            AvgAge := Some (num 30); AvgRecency := Some (num 10);
            AvgFrequency := Some (num 2);
            AvgAvgMonetary := Some (num 40); AvgTotalMonetary := Some (num 40);
            extra := [] |}].

(** Six cities with one row each: one more than the smallest page size. *)
Definition six_cities : DataFrame :=
  frame ((λ c, row c 0 10 100 2) <$> ["A"; "B"; "C"; "D"; "E"; "F"]).

(** * Properties *)

Local Close Scope Qc_scope.
Local Close Scope Z_scope.

(** From canonical rationals to rationals, where [lra] works. *)
Ltac qc_to_q :=
  unfold Qcle, Qclt, Qcminus, Qcplus, Qcdiv, Qcmult, Qcopp, Qcinv, frac, num, Q2Qc in *;
  cbn [this Qc_of_Z] in *; rewrite ?Qred_correct in *.

(** The properties hold whatever the sort does with equal keys and the
    rounding with halves: [np] is any such choice. *)
Section Pipeline.
Context {np : Numerics}.

(** ** De-duplication and sorting *)

Section SortingFacts.
Context {A : Type}.

Lemma elem_of_unique `{EqDecision A} (l : list A) x : x ∈ unique l ↔ x ∈ l.
Proof.
  induction l as [|y l IH]; simpl; [done|].
  rewrite !elem_of_cons, list_elem_of_filter, IH.
  destruct (decide (x = y)); naive_solver.
Qed.

Lemma NoDup_unique `{EqDecision A} (l : list A) : NoDup (unique l).
Proof.
  induction l as [|y l IH]; simpl; [constructor|].
  constructor; [|by apply list.NoDup_filter].
  rewrite list_elem_of_filter. naive_solver.
Qed.

Lemma insert_sorted_Permutation (leb : A → A → bool) x l :
  insert_sorted leb x l ≡ₚ x :: l.
Proof.
  induction l as [|y l IH]; simpl; [done|].
  destruct (leb x y); [done|].
  by rewrite IH, Permutation_swap.
Qed.

Lemma stable_sort_Permutation (leb : A → A → bool) l : stable_sort leb l ≡ₚ l.
Proof.
  induction l as [|x l IH]; simpl; [done|].
  by rewrite insert_sorted_Permutation, IH.
Qed.

Lemma elem_of_stable_sort (leb : A → A → bool) l x :
  x ∈ stable_sort leb l ↔ x ∈ l.
Proof. by rewrite stable_sort_Permutation. Qed.

Lemma length_stable_sort (leb : A → A → bool) l :
  length (stable_sort leb l) = length l.
Proof. by rewrite stable_sort_Permutation. Qed.

Lemma NoDup_stable_sort (leb : A → A → bool) l :
  NoDup l → NoDup (stable_sort leb l).
Proof. by rewrite stable_sort_Permutation. Qed.

Lemma insert_sorted_sorted (R : relation A) `{!Transitive R} leb x l :
  Forall (decides leb R x) l →
  StronglySorted R l → StronglySorted R (insert_sorted leb x l).
Proof.
  induction l as [|y l IH]; simpl; intros Hx Hl.
  { repeat constructor. }
  apply Forall_cons_1 in Hx as [Hxy Hx].
  apply StronglySorted_cons in Hl as [Hy Hl].
  unfold decides in Hxy. destruct (leb x y).
  - apply SSorted_cons; [by apply SSorted_cons|].
    apply Forall_cons_2; [done|].
    eapply List.Forall_impl; [|exact Hy]. intros z ?. by trans y.
  - constructor; [by apply IH|].
    rewrite insert_sorted_Permutation. by constructor.
Qed.

Lemma stable_sort_sorted (R : relation A) `{!Transitive R} leb l :
  StronglySorted (decides leb R) l → StronglySorted R (stable_sort leb l).
Proof.
  induction 1 as [|x l Hl IH Hx]; simpl; [constructor|].
  apply insert_sorted_sorted; [done| |done].
  by rewrite stable_sort_Permutation.
Qed.

Lemma StronglySorted_trivial (R : relation A) l :
  (∀ x y, R x y) → StronglySorted R l.
Proof.
  intros HR. induction l; constructor; [done|].
  by apply Forall_forall.
Qed.

(** A total, transitive comparison sorts whatever the input. *)
Lemma stable_sort_total (R : relation A) `{!Transitive R} leb l :
  (∀ x y, decides leb R x y) → StronglySorted R (stable_sort leb l).
Proof. intros. by apply stable_sort_sorted, StronglySorted_trivial. Qed.

End SortingFacts.

Section DescendingSortFacts.
Context {A : Type}.

Lemma snd_keyed (key : A → cell) l :
  (keyed key l).*2 = filter (λ a, is_Some (key a)) l.
Proof.
  unfold keyed. induction l as [|a l IH]; [done|].
  destruct (key a) as [x|] eqn:E.
  - rewrite filter_cons_True by (rewrite E; by eexists).
    rewrite <-IH. simpl. by rewrite E.
  - rewrite filter_cons_False by (rewrite E; by intros [? ?]).
    rewrite <-IH. simpl. by rewrite E.
Qed.

Lemma keyed_key (key : A → cell) l e : e ∈ keyed key l → key e.2 = Some e.1.
Proof.
  unfold keyed. rewrite list_elem_of_omap. intros (a & _ & Ha).
  destruct (key a) as [x|] eqn:E; simplify_eq/=. done.
Qed.

Lemma snd_imap_pair {B C} (f : nat → B → C) (l : list B) :
  (imap (λ i e, (f i e, e)) l).*2 = l.
Proof.
  revert f. induction l as [|x l IH]; intros f; [done|].
  rewrite imap_cons, fmap_cons. f_equal. apply (IH (f ∘ S)).
Qed.

Lemma sort_values_desc_present (key : A → cell) l :
  ∃ ranked : list (nat * (Qc * A)),
    ranked.*2.*2 = filter (λ a, is_Some (key a)) l ∧
    sort_values_desc key l =
      (stable_sort desc_leb ranked).*2.*2 ++ filter (λ a, ¬ is_Some (key a)) l.
Proof.
  eexists. split; [|reflexivity].
  by rewrite (snd_imap_pair (λ i _, argsort_rank (keyed key l).*1 i)), snd_keyed.
Qed.

Lemma sort_values_desc_Permutation (key : A → cell) l :
  sort_values_desc key l ≡ₚ l.
Proof.
  destruct (sort_values_desc_present key l) as (ranked & Hranked & ->).
  rewrite stable_sort_Permutation, Hranked.
  apply filter_app_complement.
Qed.
End DescendingSortFacts.

Lemma StronglySorted_mono {A} (R1 R2 : relation A) l :
  (∀ x y, x ∈ l → y ∈ l → R1 x y → R2 x y) →
  StronglySorted R1 l → StronglySorted R2 l.
Proof.
  intros Himpl Hl. induction Hl as [|x l Hl IH Hx]; [constructor|].
  constructor.
  - apply IH. intros y z Hy Hz. apply Himpl; by right.
  - rewrite Forall_forall in Hx |- *. intros y Hy.
    apply Himpl; [by left|by right|auto].
Qed.

Section KeyOrder.
Context {A : Type} (key : A → cell).

Lemma desc_leb_decides (a b : nat * (Qc * A)) :
  decides desc_leb (λ a b, (b.2.1 ≤ a.2.1)%Qc) a b.
Proof.
  unfold decides, desc_leb.
  destruct (bool_decide (b.2.1 < a.2.1)%Qc) eqn:Hlt; simpl.
  { apply bool_decide_eq_true in Hlt. by apply Qclt_le_weak. }
  apply bool_decide_eq_false in Hlt. apply Qcnot_lt_le in Hlt.
  destruct (bool_decide (a.2.1 = b.2.1)) eqn:Heq; simpl.
  - apply bool_decide_eq_true in Heq. rewrite Heq.
    destruct (a.1 <=? b.1); apply Qcle_refl.
  - done.
Qed.

Lemma sort_values_desc_sorted (l : list A) :
  StronglySorted (key_before key) (sort_values_desc key l).
Proof.
  unfold sort_values_desc; cbv zeta.
  set (ranked := imap _ (keyed key l)).
  assert (∀ e, e ∈ stable_sort desc_leb ranked → key e.2.2 = Some e.2.1) as Hkey.
  { intros e He. apply elem_of_stable_sort in He. apply (keyed_key key l).
    rewrite <-(snd_imap_pair (λ i _, argsort_rank (keyed key l).*1 i) (keyed key l)).
    apply list_elem_of_fmap. by exists e. }
  apply StronglySorted_app_2.
  - intros a b _ [Hb _]%list_elem_of_filter. unfold key_before.
    destruct (key b) as [y|]; [|done]. destruct Hb. by eexists.
  - rewrite <-list_fmap_compose.
    assert (StronglySorted (λ a b : nat * (Qc * A), (b.2.1 ≤ a.2.1)%Qc)
              (stable_sort desc_leb ranked)) as Hsorted.
    { apply stable_sort_total; [|apply desc_leb_decides].
      intros a b c ??. by apply Qcle_trans with (b.2.1). }
    revert Hkey Hsorted. generalize (stable_sort desc_leb ranked).
    intros s Hkey Hsorted.
    induction Hsorted as [|e s Hs IH He]; [constructor|].
    rewrite fmap_cons. constructor.
    + apply IH. intros e' He'. apply Hkey. by right.
    + apply Forall_fmap, Forall_forall. intros e' He'. simpl.
      rewrite Forall_forall in He. specialize (He e' He').
      unfold key_before. rewrite (Hkey e) by by left.
      rewrite (Hkey e') by by right. done.
  - eapply StronglySorted_mono; [|by apply (StronglySorted_trivial (λ _ _, True))].
    intros x y _ [Hy _]%list_elem_of_filter _. unfold key_before.
    destruct (key y) as [v|]; [|done]. destruct Hy. by eexists.
Qed.
End KeyOrder.

Lemma sorted_str_sorted l : StronglySorted String.le (sorted_str l).
Proof.
  apply stable_sort_total; [apply _|].
  intros x y. unfold decides, String.le.
  destruct (String.leb x y) eqn:E; [done|].
  destruct (String.leb_total x y) as [H|H]; [congruence|by rewrite H].
Qed.

Lemma sorted_str_of_sorted (l k : list string) :
  StronglySorted String.le k → l ≡ₚ k → sorted_str l = k.
Proof.
  intros Hk Hperm. apply (StronglySorted_unique String.le).
  - apply sorted_str_sorted.
  - done.
  - unfold sorted_str. by rewrite stable_sort_Permutation.
Qed.

Lemma sorted_Z_sorted l : StronglySorted Z.le (sorted_Z l).
Proof.
  apply stable_sort_total; [apply _|].
  intros x y. unfold decides. destruct (Z.leb_spec x y); lia.
Qed.

(** ** Filters *)

Section FilterFacts.
Context {A : Type} (P : A → Prop) `{!∀ x, Decision (P x)}.

Lemma filter_all (l : list A) : Forall P l → filter P l = l.
Proof.
  induction 1 as [|x l Hx _ IH]; [done|].
  by rewrite filter_cons_True, IH.
Qed.

Lemma filter_none (l : list A) : Forall (λ x, ¬ P x) l → filter P l = [].
Proof.
  induction 1 as [|x l Hx _ IH]; [done|].
  by rewrite filter_cons_False.
Qed.

End FilterFacts.

Lemma NoDup_subseteq_length {A} (l k : list A) :
  NoDup l → l ⊆ k → length l ≤ length k.
Proof. intros Hl Hlk. by apply submseteq_length, NoDup_submseteq. Qed.

Lemma sublist_elem_of {A} (l k : list A) x : l `sublist_of` k → x ∈ l → x ∈ k.
Proof. intros H. by apply sublist_subseteq. Qed.

Lemma isin_true {A} `{EqDecision A} (v : option A) (sel : list A) :
  isin v sel ↔ ∃ x, v = Some x ∧ x ∈ sel.
Proof.
  destruct v as [x|]; simpl.
  - rewrite bool_decide_spec. naive_solver.
  - naive_solver.
Qed.

Lemma nansum_app (c1 c2 : list cell) :
  nansum (c1 ++ c2) = (nansum c1 + nansum c2)%Qc.
Proof.
  induction c1 as [|[x|] c1 IH]; simpl.
  - by rewrite Qcplus_0_l.
  - by rewrite IH, Qcplus_assoc.
  - done.
Qed.

Lemma nansum_Permutation (c1 c2 : list cell) : c1 ≡ₚ c2 → nansum c1 = nansum c2.
Proof.
  induction 1 as [|[x|] c1 c2 _ IH|[x|] [y|] c|c1 c2 c3 _ IH1 _ IH2]; simpl;
    try congruence.
  rewrite !Qcplus_assoc. f_equal. apply Qcplus_comm.
Qed.

(** ** Cities of a frame *)

Lemma elem_of_dropna {A} (col : list (option A)) x : x ∈ dropna col ↔ Some x ∈ col.
Proof.
  unfold dropna. rewrite list_elem_of_omap. naive_solver.
Qed.

Lemma elem_of_cities_of rs c :
  c ∈ cities_of rs ↔ ∃ r, r ∈ rs ∧ CustLocation r = Some c.
Proof.
  unfold cities_of. rewrite elem_of_unique, elem_of_dropna, list_elem_of_fmap.
  naive_solver.
Qed.

Lemma NoDup_cities_of rs : NoDup (cities_of rs).
Proof. apply NoDup_unique. Qed.

Lemma elem_of_candidate_cities rs c :
  c ∈ candidate_cities rs ↔ ∃ r, r ∈ rs ∧ CustLocation r = Some c.
Proof.
  unfold candidate_cities, sorted_str.
  by rewrite elem_of_stable_sort, elem_of_cities_of.
Qed.

Lemma NoDup_candidate_cities rs : NoDup (candidate_cities rs).
Proof. apply NoDup_stable_sort, NoDup_cities_of. Qed.

Lemma length_candidate_cities rs :
  length (candidate_cities rs) = length (cities_of rs).
Proof. apply length_stable_sort. Qed.

Lemma elem_of_all_cities df c :
  c ∈ all_cities df ↔ ∃ r, r ∈ rows df ∧ CustLocation r = Some c.
Proof. apply elem_of_candidate_cities. Qed.

(** ** The per-city totals and their ranking *)

Lemma fst_groupby_city_sum rs : (groupby_city_sum rs).*1 = candidate_cities rs.
Proof.
  unfold groupby_city_sum, candidate_cities.
  rewrite <-list_fmap_compose. apply list_fmap_id.
Qed.

Lemma fst_city_totals_all rs : (city_totals_all rs).*1 ≡ₚ cities_of rs.
Proof.
  unfold city_totals_all.
  rewrite sort_values_desc_Permutation, fst_groupby_city_sum.
  apply stable_sort_Permutation.
Qed.

Lemma length_city_totals_all rs :
  length (city_totals_all rs) = length (cities_of rs).
Proof. by rewrite <-(length_fmap fst), fst_city_totals_all. Qed.

Lemma keep_cities_subseteq n rs : keep_cities n rs ⊆ cities_of rs.
Proof.
  unfold keep_cities. intros c Hc.
  rewrite <-fst_city_totals_all.
  eapply list_elem_of_fmap in Hc as (e & -> & He).
  apply list_elem_of_fmap. exists e. split; [done|].
  eapply sublist_elem_of; [apply sublist_take|done].
Qed.

Lemma length_keep_cities n rs :
  length (keep_cities n rs) = Nat.min (Pos.to_nat n) (length (cities_of rs)).
Proof.
  unfold keep_cities. by rewrite length_fmap, length_take, length_city_totals_all.
Qed.

Lemma keep_cities_all n rs :
  length (cities_of rs) ≤ Pos.to_nat n → keep_cities n rs ≡ₚ cities_of rs.
Proof.
  intros Hn. unfold keep_cities.
  rewrite take_ge by (by rewrite length_city_totals_all).
  apply fst_city_totals_all.
Qed.

(** ** The filtered frames hold named rows only *)

Lemma selected_spec df st r :
  r ∈ selected df st ↔ r ∈ rows df ∧ in_selection st r.
Proof. unfold selected. rewrite list_elem_of_filter. naive_solver. Qed.

Lemma in_selection_named st r : in_selection st r → is_Some (CustLocation r).
Proof.
  unfold in_selection. intros [H _]%andb_True.
  apply isin_true in H as (c & -> & _). by eexists.
Qed.

Lemma fdf_base_sublist df st : fdf_base df st `sublist_of` selected df st.
Proof.
  unfold fdf_base. destruct (topn st); [apply sublist_filter|done].
Qed.

Lemma fdf_base_selected df st r : r ∈ fdf_base df st → r ∈ rows df ∧ in_selection st r.
Proof.
  intros Hr. apply selected_spec.
  eapply sublist_elem_of; [apply fdf_base_sublist|done].
Qed.

Lemma paginate_sublist base st : fdf (paginate base st) `sublist_of` base.
Proof.
  unfold paginate. destruct (show_all st); simpl; [done|].
  apply sublist_filter.
Qed.

Lemma view_selected df st r :
  r ∈ fdf (view df st) → r ∈ rows df ∧ in_selection st r.
Proof.
  intros Hr. apply fdf_base_selected.
  eapply sublist_elem_of; [apply paginate_sublist|done].
Qed.

(** ** Idempotence of the filter *)

Lemma topn_filter_fixpoint n rs :
  let out := filter (λ r, isin (CustLocation r) (keep_cities n rs)) rs in
  filter (λ r, isin (CustLocation r) (keep_cities n out)) out = out.
Proof.
  intros out. apply filter_all, Forall_forall. intros r Hr.
  assert (cities_of out ⊆ keep_cities n rs) as Hsub.
  { intros c (r' & Hr' & Hc)%elem_of_cities_of.
    apply list_elem_of_filter in Hr' as [Hin _].
    apply isin_true in Hin as (c' & ? & ?). congruence. }
  assert (length (cities_of out) ≤ Pos.to_nat n) as Hlen.
  { etrans; [apply NoDup_subseteq_length, Hsub; apply NoDup_cities_of|].
    rewrite length_keep_cities. lia. }
  pose proof Hr as [Hin _]%list_elem_of_filter.
  apply isin_true in Hin as (c & Hc & _).
  apply isin_true. exists c. split; [done|].
  rewrite (keep_cities_all n out Hlen).
  apply elem_of_cities_of. eauto.
Qed.

(** C6. Filtering is idempotent: running the city, cluster and Top-N filter
    of lines 136-142 again, with the same sidebar state, on the frame it
    produced gives that frame back unchanged, whether or not a Top-N cutoff
    is set. *)
Theorem apply_filters_idempotent (df : DataFrame) (st : FilterState) :
  fdf_base (reframe df (fdf_base df st)) st = fdf_base df st.
Proof.
  assert (selected (reframe df (fdf_base df st)) st = fdf_base df st) as Hsel.
  { unfold selected; simpl. apply filter_all, Forall_forall.
    intros r Hr. by apply fdf_base_selected in Hr as [_ ?]. }
  unfold fdf_base at 1. rewrite Hsel. unfold fdf_base.
  destruct (topn st) as [n|]; [|done].
  apply topn_filter_fixpoint.
Qed.

(** ** Rows without a city *)

Lemma selected_with_city df st :
  selected (reframe df (with_city df)) st = selected df st.
Proof.
  unfold selected, with_city; simpl.
  apply list_filter_filter_l. intros r. apply in_selection_named.
Qed.

Lemma view_with_city df st : view (reframe df (with_city df)) st = view df st.
Proof.
  unfold view, fdf_base. by rewrite selected_with_city.
Qed.

Lemma nansum_split {A} (P : A → Prop) `{!∀ x, Decision (P x)} (f : A → cell) l :
  nansum (f <$> l) =
  (nansum (f <$> filter P l) + nansum (f <$> filter (λ x, ¬ P x) l))%Qc.
Proof.
  rewrite <-nansum_app, <-fmap_app.
  apply nansum_Permutation, fmap_Permutation.
  symmetry. apply filter_app_complement.
Qed.

Lemma int_of_num (z : Z) : int_of (num z) = z.
Proof.
  unfold int_of, num, Qc_of_Z. simpl. apply Z.quot_1_r.
Qed.

(** C10. Rows whose CustLocation is missing count in the KPIs and nowhere
    else.  The cities offered for selection are exactly the city names
    present in the data; whatever the selection, every row of the base
    filter, of the page view and of the download has a city; the page view
    and every table derived from it, and the download, are what they would
    be had the rows without a city never been loaded.  The KPIs are not:
    Total Customers is the whole number of the counts of the rows with a
    city plus the counts of the rows without one, and the average spend
    divides the spend of both kinds of rows by the count of both; when the
    rows with a city count [a] customers and the rows without one [b],
    Total Customers shows [a + b], where the frame without those rows shows
    [a].  With every offered city selected on two rows, A with 10 customers
    spending 100 and an unnamed row with 5 spending 40, the view holds the
    row of A alone and the KPIs show 15 customers and an average of 80,
    against 10 and 100 for the row of A alone. *)
Theorem missing_city_rows_only_in_kpis (df : DataFrame) (st : FilterState) :
  let named := reframe df (with_city df) in
  let count_of rs := nansum (CustomerCount <$> rs) in
  let spend_of rs :=
    nansum ((λ r, cell_mul (AvgTotalMonetary r) (CustomerCount r)) <$> rs) in
  (∀ c, c ∈ all_cities df ↔ ∃ r, r ∈ rows df ∧ CustLocation r = Some c) ∧
  (∀ r, r ∈ fdf_base df st → has_city r) ∧
  (∀ r, r ∈ fdf (shown (render df st)) → has_city r) ∧
  (∀ r, r ∈ records (download (render df st)) → has_city r) ∧
  shown (render df st) = shown (render named st) ∧
  radar (render df st) = radar (render named st) ∧
  segments (render df st) = segments (render named st) ∧
  strategy (render df st) = strategy (render named st) ∧
  download (render df st) = download (render named st) ∧
  kpi_total_customers (render df st) =
    int_of (count_of (with_city df) + count_of (without_city df))%Qc ∧
  kpi_weighted_spend (render df st) =
    fdiv (spend_of (with_city df) + spend_of (without_city df))%Qc
         (count_of (with_city df) + count_of (without_city df))%Qc ∧
  (∀ a b : Z, count_of (with_city df) = num a → count_of (without_city df) = num b →
     kpi_total_customers (render df st) = (a + b)%Z ∧
     kpi_total_customers (render named st) = a) ∧
  (let unnamed := one_row_unnamed in
   let only_A := reframe unnamed (with_city unnamed) in
   let everything := show_everything (first_page_of_five unnamed) in
   city_sel everything = all_cities unnamed ∧
   fdf (shown (render unnamed everything)) = [row "A" 0 10 100 2] ∧
   kpi_total_customers (render unnamed everything) = 15%Z ∧
   kpi_weighted_spend (render unnamed everything) = Fin (num 80) ∧
   kpi_total_customers (render only_A everything) = 10%Z ∧
   kpi_weighted_spend (render only_A everything) = Fin (num 100)).
Proof.
  intros named count_of spend_of. subst named.
  assert (∀ r, r ∈ fdf (view df st) → has_city r) as Hview.
  { intros r [_ ?]%view_selected. by eapply in_selection_named. }
  assert (count_of (rows df)
          = (count_of (with_city df) + count_of (without_city df))%Qc) as Hcount
    by apply nansum_split.
  split_and!.
  - apply elem_of_all_cities.
  - intros r [_ ?]%fdf_base_selected. by eapply in_selection_named.
  - done.
  - done.
  - unfold render; simpl. by rewrite view_with_city.
  - unfold render; simpl. by rewrite view_with_city.
  - unfold render; simpl. by rewrite view_with_city.
  - unfold render; simpl. by rewrite view_with_city.
  - unfold render, csv; simpl. by rewrite view_with_city.
  - unfold render; simpl. unfold total_customers.
    fold (count_of (rows df)). by rewrite Hcount.
  - unfold render; simpl. unfold weighted_spend.
    fold (count_of (rows df)) (spend_of (rows df)). rewrite Hcount. f_equal.
    apply nansum_split.
  - intros a b Ha Hb. unfold render; simpl. unfold total_customers; simpl.
    fold (count_of (rows df)) (count_of (with_city df)).
    rewrite Hcount, Ha, Hb. unfold num at 1 2. rewrite <-Z2Qc_inj_add.
    split; apply int_of_num.
  - cbv zeta. split_and!.
    + by vm_compute.
    + apply (bool_decide_unpack _). by vm_compute.
    + by vm_compute.
    + apply (bool_decide_unpack _). by vm_compute.
    + by vm_compute.
    + apply (bool_decide_unpack _). by vm_compute.
Qed.

(** ** Pagination *)

Lemma ceil_div_spec n d :
  0 < d → n ≤ ceil_div n d * d ∧ ceil_div n d * d < n + d.
Proof.
  intros Hd. unfold ceil_div.
  pose proof (Nat.div_mod_eq (n + d - 1) d) as Hdm.
  pose proof (Nat.mod_upper_bound (n + d - 1) d) as Hr.
  nia.
Qed.

Lemma ceil_div_0 d : 0 < d → ceil_div 0 d = 0.
Proof. intros Hd. pose proof (ceil_div_spec 0 d Hd). nia. Qed.

Lemma join_slices {A} (l : list A) s k :
  mjoin ((λ i, take s (drop (i * s) l)) <$> seq 0 k) = take (k * s) l.
Proof.
  induction k as [|k IH]; [done|].
  replace (S k * s) with (k * s + s) by lia.
  rewrite seq_S, fmap_app, join_app, IH; simpl.
  by rewrite app_nil_r, take_take_drop.
Qed.

Lemma elem_of_slice {A} (l : list A) a s x :
  x ∈ take s (drop a l) ↔ ∃ j, l !! j = Some x ∧ a ≤ j < a + s.
Proof.
  rewrite list_elem_of_lookup. split.
  - intros (i & Hi). apply lookup_take_Some in Hi as [Hi ?].
    rewrite lookup_drop in Hi. exists (a + i). split; [done|lia].
  - intros (j & Hj & ?). exists (j - a).
    rewrite lookup_take_lt, lookup_drop by lia.
    by replace (a + (j - a)) with j by lia.
Qed.

(** Rows sorted into disjoint groups of cities that cover them all. *)
Lemma filter_groups_Permutation (groups : list (list string)) (rs : list Row) :
  NoDup (mjoin groups) →
  Forall (λ r, isin (CustLocation r) (mjoin groups)) rs →
  mjoin ((λ g, filter (λ r, isin (CustLocation r) g) rs) <$> groups) ≡ₚ rs.
Proof.
  revert rs. induction groups as [|g groups IH]; intros rs Hnd Hall; simpl in *.
  - destruct rs as [|r rs]; [done|].
    apply Forall_cons_1 in Hall as [Hr _].
    apply isin_true in Hr as (? & _ & []%elem_of_nil).
  - apply NoDup_app in Hnd as (Hg & Hdisj & Hrest).
    etrans; [|apply (filter_app_complement (λ r, isin (CustLocation r) g) rs)].
    apply Permutation_app; [done|].
    rewrite <-(IH (filter (λ r, ¬ isin (CustLocation r) g) rs) Hrest).
    + apply reflexive_eq. f_equal. apply Forall_fmap_ext, Forall_forall.
      intros g' Hg'. rewrite list_filter_filter. apply list_filter_iff.
      intros r. split; [|naive_solver].
      intros Hr. split; [done|].
      apply isin_true in Hr as (c & Hc & Hcg').
      rewrite isin_true. intros (c' & ? & Hcg). simplify_eq.
      apply (Hdisj c Hcg). apply list_elem_of_join. eauto.
    + apply Forall_forall. intros r [Hng Hr]%list_elem_of_filter.
      rewrite Forall_forall in Hall. specialize (Hall r Hr).
      apply isin_true in Hall as (c & Hc & [Hcg|Hcg]%elem_of_app);
        [|apply isin_true; eauto].
      destruct Hng. apply isin_true. eauto.
Qed.

Lemma join_page_slices base size k :
  mjoin (page_slice base size <$> seq 1 k) =
  take (k * Pos.to_nat size) (candidate_cities base).
Proof.
  rewrite <-fmap_S_seq, <-list_fmap_compose, <-join_slices.
  f_equal. apply list_fmap_ext. intros _ i _. unfold page_slice; simpl.
  by rewrite Nat.sub_0_r.
Qed.

Lemma pages_of_covers base size :
  length (candidate_cities base) ≤ pages_of base size * Pos.to_nat size.
Proof.
  unfold pages_of.
  pose proof (ceil_div_spec (length (candidate_cities base)) (Pos.to_nat size)).
  nia.
Qed.

Lemma join_all_page_slices base size :
  mjoin (page_slice base size <$> seq 1 (pages_of base size)) = candidate_cities base.
Proof. rewrite join_page_slices. apply take_ge, pages_of_covers. Qed.

Lemma named_in_candidates base r :
  r ∈ base → has_city r → isin (CustLocation r) (candidate_cities base).
Proof.
  intros Hr [c Hc]. apply isin_true. exists c. split; [done|].
  apply elem_of_candidate_cities. eauto.
Qed.

Lemma pages_cover base size :
  Forall has_city base →
  mjoin (page_rows base size <$> seq 1 (pages_of base size)) ≡ₚ base.
Proof.
  intros Hnamed.
  pose proof (filter_groups_Permutation
    (page_slice base size <$> seq 1 (pages_of base size)) base) as Hperm.
  rewrite <-list_fmap_compose in Hperm. apply Hperm.
  - rewrite join_all_page_slices. apply NoDup_candidate_cities.
  - rewrite join_all_page_slices. apply Forall_forall. intros r Hr.
    apply named_in_candidates; [done|].
    rewrite Forall_forall in Hnamed. auto.
Qed.

Lemma elem_of_page_rows base size p r :
  r ∈ page_rows base size p ↔
  r ∈ base ∧ ∃ c j, CustLocation r = Some c ∧ candidate_cities base !! j = Some c ∧
                    (p - 1) * Pos.to_nat size ≤ j < (p - 1) * Pos.to_nat size + Pos.to_nat size.
Proof.
  unfold page_rows, page_slice. rewrite list_elem_of_filter, isin_true.
  setoid_rewrite elem_of_slice. naive_solver.
Qed.

Lemma row_on_one_page base size r :
  r ∈ base → has_city r →
  ∃ p, (1 ≤ p ≤ pages_of base size ∧ r ∈ page_rows base size p) ∧
       ∀ q, 1 ≤ q → r ∈ page_rows base size q → q = p.
Proof.
  intros Hr [c Hc].
  assert (c ∈ candidate_cities base) as [i Hi]%list_elem_of_lookup.
  { apply elem_of_candidate_cities. eauto. }
  pose proof (lookup_lt_Some _ _ _ Hi) as Hlt.
  pose proof (pages_of_covers base size) as Hcov.
  set (s := Pos.to_nat size) in *.
  assert (0 < s) as Hs by (unfold s; lia).
  pose proof (Nat.div_mod_eq i s) as Hdm.
  pose proof (Nat.mod_upper_bound i s) as Hm.
  exists (S (i / s)). split; [split|].
  - split; [lia|]. apply Nat.le_succ_l, Nat.Div0.div_lt_upper_bound. lia.
  - apply elem_of_page_rows. split; [done|]. exists c, i. fold s. split_and!; [done..| |]; nia.
  - intros q Hq (_ & c' & j & Hc' & Hj & Hrange)%elem_of_page_rows. fold s in Hrange.
    assert (c' = c) as -> by congruence.
    assert (j = i) as -> by (eapply NoDup_lookup; eauto using NoDup_candidate_cities).
    nia.
Qed.

Lemma number_input_cases lo hi value entry :
  ((lo ≤ entry ≤ hi)%Z ∧ number_input lo hi value entry = entry) ∨
  (¬ (lo ≤ entry ≤ hi)%Z ∧ number_input lo hi value entry = value).
Proof.
  unfold number_input.
  destruct (Z.leb_spec lo entry), (Z.leb_spec entry hi); simpl; [left|right..]; lia.
Qed.

Lemma number_input_range lo hi value entry :
  (lo ≤ value ≤ hi)%Z → (lo ≤ number_input lo hi value entry ≤ hi)%Z.
Proof. destruct (number_input_cases lo hi value entry) as [[? ->]|[? ->]]; lia. Qed.

Lemma number_input_id lo hi value entry :
  (lo ≤ entry ≤ hi)%Z → number_input lo hi value entry = entry.
Proof. destruct (number_input_cases lo hi value entry) as [[? ->]|[? ->]]; lia. Qed.

Lemma pages_of_pos base size : 1 ≤ pages_of base size.
Proof. unfold pages_of. lia. Qed.

Lemma view_turn_page df st p :
  1 ≤ p ≤ pages_of (fdf_base df st) (page_size st) →
  fdf (view df (turn_page st p)) = page_rows (fdf_base df st) (page_size st) p.
Proof.
  intros Hp. unfold view, paginate; simpl.
  change (fdf_base df (turn_page st p)) with (fdf_base df st).
  by rewrite number_input_id, Nat2Z.id by lia.
Qed.

Lemma view_show_everything df st :
  fdf (view df (show_everything st)) = fdf_base df st.
Proof. done. Qed.

(** C2. Pagination covers the filtered rows: with "show all" off, the page
    views of pages 1 to total_pages, put end to end, are a rearrangement of
    the "show all" view (the same rows, each as often as there), and every
    row of the "show all" view lies on one page of 1..total_pages and on no
    other.  [total_pages] is the page count the code computes on any page. *)
Theorem pagination_covers_filtered_rows (df : DataFrame) (st : FilterState) :
  let total := pages_of (fdf_base df st) (page_size st) in
  (∀ p, total_pages (view df (turn_page st p)) = Some total) ∧
  mjoin ((λ p, fdf (view df (turn_page st p))) <$> seq 1 total)
    ≡ₚ fdf (view df (show_everything st)) ∧
  (∀ r, r ∈ fdf (view df (show_everything st)) →
     ∃ p, (1 ≤ p ≤ total ∧ r ∈ fdf (view df (turn_page st p))) ∧
          ∀ q, 1 ≤ q ≤ total → r ∈ fdf (view df (turn_page st q)) → q = p).
Proof.
  intros total. rewrite view_show_everything.
  assert (Forall has_city (fdf_base df st)) as Hnamed.
  { apply Forall_forall. intros r [_ ?]%fdf_base_selected.
    by eapply in_selection_named. }
  split_and!.
  - done.
  - etrans; [|apply (pages_cover (fdf_base df st) (page_size st) Hnamed)].
    apply reflexive_eq. f_equal. apply list_fmap_ext.
    intros i p [-> ?]%lookup_seq. apply view_turn_page. fold total. lia.
  - intros r Hr. rewrite Forall_forall in Hnamed.
    destruct (row_on_one_page _ (page_size st) r Hr (Hnamed r Hr))
      as (p & [Hp Hrp] & Huniq).
    exists p. split.
    + by rewrite view_turn_page.
    + intros q Hq. rewrite view_turn_page by done. apply Huniq. lia.
Qed.

Lemma candidate_cities_sorted base : StronglySorted String.le (candidate_cities base).
Proof. apply sorted_str_sorted. Qed.

Lemma page_rows_no_candidates base size p :
  candidate_cities base = [] → page_rows base size p = [].
Proof.
  intros Hnil. unfold page_rows, page_slice. rewrite Hnil, drop_nil, take_nil.
  clear Hnil. induction base as [|r base IH]; [done|].
  rewrite filter_cons_False; [done|].
  rewrite isin_true. by intros (? & _ & ?%elem_of_nil).
Qed.

Lemma ceil_div_le_1 n d : n ≤ d → 0 < d → ceil_div n d ≤ 1.
Proof.
  intros Hn Hd. unfold ceil_div.
  apply Nat.lt_succ_r, Nat.Div0.div_lt_upper_bound. lia.
Qed.

Lemma show_all_is_one_page base size :
  length (candidate_cities base) ≤ Pos.to_nat size →
  pages_of base size = 1 ∧
  page_slice base size 1 = candidate_cities base ∧
  page_rows base size 1 = filter has_city base.
Proof.
  intros Hlen.
  assert (page_slice base size 1 = candidate_cities base) as Hslice.
  { unfold page_slice. simpl. by rewrite take_ge. }
  split_and!; [|done|].
  - unfold pages_of.
    pose proof (ceil_div_le_1 _ _ Hlen ltac:(lia)). lia.
  - unfold page_rows. rewrite Hslice.
    assert (∀ r c, r ∈ base → CustLocation r = Some c → c ∈ candidate_cities base)
      as Hcand.
    { intros r c Hr Hc. apply elem_of_candidate_cities. eauto. }
    revert Hcand. generalize (candidate_cities base). clear. intros cand Hcand.
    induction base as [|r base IH]; [done|].
    rewrite !filter_cons, IH by (intros r' c ?; apply Hcand; by right).
    destruct (decide (has_city r)) as [[c Hc]|Hno].
    + rewrite decide_True; [done|]. apply isin_true. exists c. split; [done|].
      apply (Hcand r); [by left|done].
    + rewrite decide_False; [done|]. rewrite isin_true. intros (c & Hc & _).
      apply Hno. by exists c.
Qed.

(** C5 (as amended). Pagination of a filtered frame.  The candidate cities
    are the distinct city names of the frame in ascending order.  With "show
    all" ticked the page view is the whole frame, on one page: its cities
    are all the candidates, as on the single page of a pagination whose
    page size covers them.  Otherwise the page count is
    ceil(distinct cities / page size), at least 1; the page index lies in
    1..page count: it is the number held for the page box when that lies in
    1..page count, and 1 when it does not; the cities of the page are the
    slice [(page-1)*size, page*size) of the candidates and the page view
    holds the rows of the frame whose city is in that slice; without any
    candidate city the page count is 1 and the page view is empty. *)
Theorem paginate_spec (base : list Row) (st : FilterState) :
  let v := paginate base st in
  let cand := candidate_cities base in
  let s := Pos.to_nat (page_size st) in
  (StronglySorted String.le cand ∧ NoDup cand ∧
   ∀ c, c ∈ cand ↔ ∃ r, r ∈ base ∧ CustLocation r = Some c) ∧
  (show_all st = true →
     fdf v = base ∧ current_cities v = cand ∧ page_count v = 1 ∧
     ∀ size, length cand ≤ Pos.to_nat size →
       pages_of base size = 1 ∧ page_slice base size 1 = cand ∧
       page_rows base size 1 = filter has_city base) ∧
  (show_all st = false →
     ∃ total p,
       total_pages v = Some total ∧ page_count v = total ∧ page v = Some p ∧
       total = Nat.max 1 (ceil_div (length cand) s) ∧
       (length cand ≤ ceil_div (length cand) s * s < length cand + s) ∧
       1 ≤ p ≤ total ∧
       ((1 ≤ page_entry st ≤ Z.of_nat total)%Z → Z.of_nat p = page_entry st) ∧
       (¬ (1 ≤ page_entry st ≤ Z.of_nat total)%Z → p = 1) ∧
       current_cities v = take s (drop ((p - 1) * s) cand) ∧
       fdf v = filter (λ r, isin (CustLocation r) (current_cities v)) base ∧
       (∀ r, r ∈ fdf v ↔
             r ∈ base ∧ ∃ c j, CustLocation r = Some c ∧ cand !! j = Some c ∧
                               (p - 1) * s ≤ j < p * s) ∧
       (cand = [] → total = 1 ∧ fdf v = [])).
Proof.
  intros v cand s. subst v. unfold paginate. split_and!.
  - apply candidate_cities_sorted.
  - apply NoDup_candidate_cities.
  - apply elem_of_candidate_cities.
  - intros ->. split_and!; [done..|]. apply show_all_is_one_page.
  - intros ->; simpl.
    set (total := pages_of base (page_size st)).
    pose proof (pages_of_pos base (page_size st)) as Hpos. fold total in Hpos.
    pose proof (number_input_cases 1 (Z.of_nat total) 1 (page_entry st)) as Hcases.
    set (p := Z.to_nat (number_input 1 (Z.of_nat total) 1 (page_entry st))).
    assert (1 ≤ p ≤ total) as Hp by (unfold p; destruct Hcases as [[? ->]|[? ->]]; lia).
    exists total, p. split_and!; try done.
    + apply ceil_div_spec. unfold s. lia.
    + apply ceil_div_spec. unfold s. lia.
    + lia.
    + lia.
    + intros H. unfold p. rewrite number_input_id by done. lia.
    + intros H. unfold p. destruct Hcases as [[? _]|[_ ->]]; [done|lia].
    + intros r. rewrite elem_of_page_rows. fold s cand.
      replace (p * s) with ((p - 1) * s + s) by nia. done.
    + intros Hnil. unfold total, pages_of. fold cand. rewrite Hnil; simpl.
      rewrite ceil_div_0 by lia. split; [done|].
      by apply page_rows_no_candidates.
Qed.

(** Six cities, five per page, and 7 held for the page box (the page the
    user was on before a filter shrank the page count to 2).  Clamping 7
    to 1..2 gives page 2, the page of city F.  The widget hands back its
    initial value instead: the page shown is page 1, cities A to E. *)
Lemma stale_page_entry_is_not_clamped :
  let st := turn_page (first_page_of_five six_cities) 7 in
  let v := paginate (rows six_cities) st in
  page_entry st = 7%Z ∧ total_pages v = Some 2 ∧
  Z.max 1 (Z.min 2 (page_entry st)) = 2%Z ∧
  page v = Some 1 ∧ page v ≠ Some 2 ∧
  current_cities v = ["A"; "B"; "C"; "D"; "E"] ∧
  page_slice (rows six_cities) (page_size st) 2 = ["F"] ∧
  fdf v ≠ page_rows (rows six_cities) (page_size st) 2.
Proof.
  intros st v. split_and!; by vm_compute.
Qed.

(** ** The download *)

Lemma single_page_is_everything base size :
  Forall has_city base → pages_of base size = 1 → page_rows base size 1 = base.
Proof.
  intros Hnamed Hone. apply filter_all, Forall_forall. intros r Hr.
  pose proof (join_all_page_slices base size) as Hjoin.
  rewrite Hone in Hjoin; simpl in Hjoin. rewrite app_nil_r in Hjoin.
  rewrite Hjoin. apply named_in_candidates; [done|].
  rewrite Forall_forall in Hnamed. auto.
Qed.

(** C4 (as amended). The download serialises the current page view, under
    the columns of the loaded file.  Its records are rows that pass the city,
    cluster and Top-N filter, in their order there; they are all of the
    filtered rows when "show all" is ticked or when the filtered rows fill
    one page only, and otherwise the filtered rows whose city is on the
    current page. *)
Theorem download_is_page_view (df : DataFrame) (st : FilterState) :
  let out := csv df st in
  let base := fdf_base df st in
  header out = columns df ∧
  records out = fdf (view df st) ∧
  records out `sublist_of` base ∧
  (show_all st = true → records out = base) ∧
  (pages_of base (page_size st) = 1 → records out = base) ∧
  (show_all st = false →
     ∃ p, page (view df st) = Some p ∧
          records out =
            filter (λ r, isin (CustLocation r) (page_slice base (page_size st) p)) base).
Proof.
  intros out base. subst out base. unfold csv; simpl. split_and!; try done.
  - apply paginate_sublist.
  - unfold view, paginate. by intros ->.
  - intros Hone. unfold view, paginate. destruct (show_all st); simpl; [done|].
    rewrite Hone; simpl.
    replace (Z.to_nat (number_input 1 (Z.of_nat 1) 1 (page_entry st))) with 1
      by (pose proof (number_input_range 1 (Z.of_nat 1) 1 (page_entry st)); lia).
    apply single_page_is_everything; [|done].
    apply Forall_forall. intros r [_ ?]%fdf_base_selected.
    by eapply in_selection_named.
  - unfold view, paginate. intros ->; simpl. eauto.
Qed.

End Pipeline.

(** Six cities, five per page, first page: the row of city F passes the
    filter and is not in the download, whatever the choices of [Numerics]. *)
Lemma download_misses_rows_off_page :
  let st := first_page_of_five six_cities in
  ∃ r, ∀ np : Numerics, r ∈ fdf_base six_cities st ∧ r ∉ records (csv six_cities st).
Proof.
  intros st.
  exists (row "F" 0 10 100 2). intros np.
  split.
  - apply (bool_decide_unpack _). by vm_compute.
  - apply (bool_decide_unpack _). by vm_compute.
Qed.

(** ** Top-N *)

Section TopN.
Context {np : Numerics}.

Lemma cities_of_Permutation rs rs' : rs ≡ₚ rs' → cities_of rs ≡ₚ cities_of rs'.
Proof.
  intros Hperm. apply NoDup_Permutation; [apply NoDup_cities_of..|].
  intros c. rewrite !elem_of_cities_of. by setoid_rewrite Hperm.
Qed.

(** Line 139 sorts the totals grouped by city: the order of the rows is
    gone by then. *)
Lemma groupby_city_sum_Permutation rs rs' :
  rs ≡ₚ rs' → groupby_city_sum rs = groupby_city_sum rs'.
Proof.
  intros Hperm. unfold groupby_city_sum.
  assert (sorted_str (cities_of rs) = sorted_str (cities_of rs')) as ->.
  { apply sorted_str_of_sorted; [apply sorted_str_sorted|].
    rewrite (cities_of_Permutation _ _ Hperm). unfold sorted_str.
    by rewrite stable_sort_Permutation. }
  apply list_fmap_ext. intros _ c _. f_equal. unfold city_total.
  apply nansum_Permutation, fmap_Permutation. by rewrite Hperm.
Qed.

Lemma city_totals_all_sorted rs :
  StronglySorted (λ a b, (b.2 ≤ a.2)%Qc) (city_totals_all rs).
Proof.
  eapply StronglySorted_mono; [|apply sort_values_desc_sorted].
  by intros x y _ _ H.
Qed.

Lemma elem_of_city_totals_all rs e :
  e ∈ city_totals_all rs ↔ ∃ c, c ∈ cities_of rs ∧ e = (c, city_total rs c).
Proof.
  unfold city_totals_all, groupby_city_sum.
  rewrite sort_values_desc_Permutation, list_elem_of_fmap.
  unfold sorted_str. setoid_rewrite elem_of_stable_sort. naive_solver.
Qed.

Lemma NoDup_fst_city_totals_all rs : NoDup (city_totals_all rs).*1.
Proof. rewrite fst_city_totals_all. apply NoDup_cities_of. Qed.

Lemma elem_of_cities_of_kept n base c :
  c ∈ cities_of (filter (λ r, isin (CustLocation r) (keep_cities n base)) base) ↔
  c ∈ keep_cities n base.
Proof.
  rewrite elem_of_cities_of. split.
  - intros (r & [Hin _]%list_elem_of_filter & Hc).
    apply isin_true in Hin as (c' & ? & ?). congruence.
  - intros Hc. pose proof (keep_cities_subseteq n base c Hc) as Hb.
    apply elem_of_cities_of in Hb as (r & Hr & Hrc). exists r. split; [|done].
    apply list_elem_of_filter. split; [|done]. apply isin_true. eauto.
Qed.

(** C1 (as amended). The Top-N branch.  The ranking lists every city of the
    already filtered rows once, with its CustomerCount total over those
    rows, in descending order of total.  The rows kept are the filtered
    rows, in their order, whose city is among the first topN cities of the
    ranking: that many cities are kept (all, if there are fewer), no
    dropped city has a larger total than a kept one, and with no more than
    topN distinct cities every row is retained.  The ranking, and with it
    the order among cities with equal totals, is computed from the totals
    grouped by city: it is the same for the same rows loaded in any other
    order. *)
Theorem top_n_keeps_highest_totals (df : DataFrame) (st : FilterState) (n : positive) :
  let base := selected df st in
  let ranking := city_totals_all base in
  let out := fdf_base df (limit_to st n) in
  (ranking.*1 ≡ₚ cities_of base ∧
   (∀ c t, (c, t) ∈ ranking → t = city_total base c) ∧
   StronglySorted (λ a b, (b.2 ≤ a.2)%Qc) ranking) ∧
  out = filter (λ r, isin (CustLocation r) (take (Pos.to_nat n) ranking).*1) base ∧
  out `sublist_of` base ∧
  (∀ c, c ∈ cities_of out ↔ c ∈ (take (Pos.to_nat n) ranking).*1) ∧
  length (cities_of out) = Nat.min (Pos.to_nat n) (length (cities_of base)) ∧
  (∀ c d, c ∈ cities_of out → d ∈ cities_of base → d ∉ cities_of out →
          (city_total base d ≤ city_total base c)%Qc) ∧
  (length (cities_of base) ≤ Pos.to_nat n → out = base) ∧
  (∀ df', rows df' ≡ₚ rows df →
          city_totals_all (selected df' st) = ranking ∧
          ∀ c, c ∈ cities_of (fdf_base df' (limit_to st n)) ↔ c ∈ cities_of out).
Proof.
  intros base ranking out.
  assert (out = filter (λ r, isin (CustLocation r) (keep_cities n base)) base)
    as Hout by done.
  assert (∀ c, c ∈ cities_of out ↔ c ∈ keep_cities n base) as Hkept.
  { intros c. rewrite Hout. apply elem_of_cities_of_kept. }
  assert (∀ c t, (c, t) ∈ ranking → t = city_total base c) as Htot.
  { intros c t (c' & _ & ?)%elem_of_city_totals_all. by simplify_eq. }
  split_and!.
  - apply fst_city_totals_all.
  - done.
  - apply city_totals_all_sorted.
  - done.
  - rewrite Hout. apply sublist_filter.
  - done.
  - rewrite <-(length_keep_cities n base).
    apply Permutation_length, NoDup_Permutation; [apply NoDup_cities_of| |done].
    unfold keep_cities. eapply sublist_NoDup; [apply NoDup_fst_city_totals_all|].
    rewrite fmap_take. apply sublist_take.
  - intros c d Hc Hd Hnd.
    pose proof (city_totals_all_sorted base) as Hs. fold ranking in Hs.
    rewrite <-(take_drop (Pos.to_nat n) ranking) in Hs.
    change (city_total base d ≤ city_total base c)%Qc
      with ((λ a b : string * Qc, (b.2 ≤ a.2)%Qc)
              (c, city_total base c) (d, city_total base d)).
    eapply StronglySorted_app_1_elem_of; [exact Hs| |].
    + apply Hkept, list_elem_of_fmap in Hc as ([c' t] & -> & Hin).
      simpl. rewrite <-(Htot c' t); [done|].
      eapply sublist_elem_of; [apply sublist_take|done].
    + assert ((d, city_total base d) ∈ ranking) as Hin.
      { apply elem_of_city_totals_all. eauto. }
      rewrite <-(take_drop (Pos.to_nat n) ranking) in Hin.
      apply elem_of_app in Hin as [Hin|Hin]; [|done].
      destruct Hnd. apply Hkept, list_elem_of_fmap. by exists (d, city_total base d).
  - intros Hlen. rewrite Hout. apply filter_all, Forall_forall. intros r Hr.
    apply selected_spec in Hr as Hsel. destruct Hsel as [_ Hsel].
    apply in_selection_named in Hsel as [c Hc].
    apply isin_true. exists c. split; [done|].
    rewrite (keep_cities_all n base Hlen). apply elem_of_cities_of. eauto.
  - intros df' Hperm.
    assert (selected df' st ≡ₚ base) as Hsel.
    { unfold base, selected. by rewrite Hperm. }
    assert (city_totals_all (selected df' st) = ranking) as Hrank.
    { unfold ranking, city_totals_all.
      by rewrite (groupby_city_sum_Permutation _ _ Hsel). }
    split; [done|]. intros c. rewrite Hkept.
    change (fdf_base df' (limit_to st n))
      with (filter (λ r, isin (CustLocation r) (keep_cities n (selected df' st)))
              (selected df' st)).
    rewrite elem_of_cities_of_kept. unfold keep_cities. by rewrite Hrank.
Qed.

End TopN.

(** The specification's tie rule fails whatever the sort does with equal
    totals.  [tied_cities] and [tied_cities_swapped] hold the same rows, D
    before A in the first and A before D in the second, so ranking ties by
    first appearance keeps D, B, C of the first and A, B, C of the second.
    The code sorts the same grouped totals in both cases and keeps the same
    three cities of both: it cannot agree with the rule on both frames. *)
Lemma top_n_ties_ignore_row_order :
  let st := limit_to (first_page_of_five tied_cities) 3 in
  first_appearance_top_n 3 (selected tied_cities st) =
    [row "D" 0 5 100 2; row "B" 0 9 100 2; row "C" 0 9 100 2] ∧
  first_appearance_top_n 3 (selected tied_cities_swapped st) =
    [row "A" 0 5 100 2; row "B" 0 9 100 2; row "C" 0 9 100 2] ∧
  ¬ ∃ np : Numerics,
      fdf_base tied_cities st = first_appearance_top_n 3 (selected tied_cities st) ∧
      fdf_base tied_cities_swapped st =
        first_appearance_top_n 3 (selected tied_cities_swapped st).
Proof.
  intros st. split_and!.
  - apply (bool_decide_unpack _). by vm_compute.
  - apply (bool_decide_unpack _). by vm_compute.
  - intros (np & H1 & H2).
    assert (keep_cities 3 (selected tied_cities_swapped st)
            = keep_cities 3 (selected tied_cities st)) as HK.
    { unfold keep_cities, city_totals_all.
      replace (groupby_city_sum (selected tied_cities_swapped st))
        with (groupby_city_sum (selected tied_cities st)); [done|].
      apply (bool_decide_unpack _). by vm_compute. }
    assert (row "A" 0 5 100 2 ∈ fdf_base tied_cities_swapped st) as Hin.
    { rewrite H2. apply (bool_decide_unpack _). by vm_compute. }
    assert (row "A" 0 5 100 2 ∉ fdf_base tied_cities st) as Hout.
    { rewrite H1. apply (bool_decide_unpack _). by vm_compute. }
    change (fdf_base tied_cities_swapped st)
      with (filter (λ r, isin (CustLocation r)
                           (keep_cities 3 (selected tied_cities_swapped st)))
              (selected tied_cities_swapped st)) in Hin.
    change (fdf_base tied_cities st)
      with (filter (λ r, isin (CustLocation r) (keep_cities 3 (selected tied_cities st)))
              (selected tied_cities st)) in Hout.
    rewrite HK in Hin. apply list_elem_of_filter in Hin as [Hin _].
    apply Hout, list_elem_of_filter. split; [done|].
    apply (bool_decide_unpack _). by vm_compute.
Qed.

Section Aggregates.
Context {np : Numerics}.

(** ** KPI row *)

Lemma value_cell_mul a b : value (cell_mul a b) = (value a * value b)%Qc.
Proof.
  destruct a, b; simpl; by rewrite ?Qcmult_0_l, ?Qcmult_0_r.
Qed.

Lemma nansum_qsum (f : Row → cell) rs :
  nansum (f <$> rs) = qsum (λ r, value (f r)) rs.
Proof.
  induction rs as [|r rs IH]; [done|]. rewrite fmap_cons.
  cbn [qsum foldr nansum]. fold (qsum (λ r, value (f r)) rs).
  destruct (f r); simpl; rewrite IH; [done|by rewrite Qcplus_0_l].
Qed.

Lemma qsum_nonneg f rs : Forall (λ r, (0 ≤ f r)%Qc) rs → (0 ≤ qsum f rs)%Qc.
Proof.
  induction 1 as [|r rs Hr _ IH]; simpl; [apply Qcle_refl|].
  rewrite <-(Qcplus_0_l 0). by apply Qcplus_le_compat.
Qed.

Lemma Qc_sum_zero a b : (0 ≤ a)%Qc → (0 ≤ b)%Qc → (a + b)%Qc = 0%Qc → a = 0%Qc.
Proof.
  intros Ha Hb Hab. apply Qcle_antisym; [|done].
  rewrite <-Hab, <-(Qcplus_0_r a) at 1. by apply Qcplus_le_compat; [apply Qcle_refl|].
Qed.

Lemma qsum_zero f rs :
  Forall (λ r, (0 ≤ f r)%Qc) rs → qsum f rs = 0%Qc → Forall (λ r, f r = 0%Qc) rs.
Proof.
  induction 1 as [|r rs Hr Hrs IH]; simpl; intros Hsum; [constructor|].
  pose proof (qsum_nonneg f rs Hrs) as Hnn.
  constructor.
  - by apply (Qc_sum_zero (f r) (qsum f rs)).
  - apply IH. rewrite Qcplus_comm in Hsum.
    by apply (Qc_sum_zero (qsum f rs) (f r)).
Qed.

Lemma qsum_all_zero f rs : Forall (λ r, f r = 0%Qc) rs → qsum f rs = 0%Qc.
Proof.
  induction 1 as [|r rs Hr _ IH]; simpl; [done|].
  by rewrite Hr, IH, Qcplus_0_l.
Qed.

Lemma weighted_spend_sums df :
  weighted_spend df =
  fdiv (qsum (λ r, value (AvgTotalMonetary r) * value (CustomerCount r))%Qc (rows df))
       (qsum (λ r, value (CustomerCount r)) (rows df)).
Proof.
  unfold weighted_spend. rewrite !nansum_qsum. f_equal.
  induction (rows df) as [|r rs IH]; [done|]. cbn [qsum foldr].
  rewrite value_cell_mul. f_equal. apply IH.
Qed.

(** C3. The average-spend KPI.  It is the same whatever the sidebar state;
    it is the sum over all rows of the loaded frame of AvgTotalMonetary
    times CustomerCount divided by the sum of CustomerCount (a missing cell
    adds nothing to a sum); when that total is zero the division does not
    fail but gives a value that is not a number (NaN, or an infinity), and
    NaN whenever no count is negative; for counts 2, 3 and spends 100, 200
    it is 160. *)
Theorem weighted_spend_over_full_dataset (df : DataFrame) (st st' : FilterState) :
  let spend := qsum (λ r, value (AvgTotalMonetary r) * value (CustomerCount r))%Qc (rows df) in
  let total := qsum (λ r, value (CustomerCount r)) (rows df) in
  let kpi := kpi_weighted_spend (render df st) in
  kpi = kpi_weighted_spend (render df st') ∧
  kpi = fdiv spend total ∧
  (total ≠ 0%Qc → kpi = Fin (spend / total)) ∧
  (total = 0%Qc → kpi = NaN ∨ ∃ negative, kpi = Inf negative) ∧
  (total = 0%Qc → Forall (λ r, (0 ≤ value (CustomerCount r))%Qc) (rows df) → kpi = NaN) ∧
  kpi_weighted_spend (render (frame [row "A" 1 2 100 1; row "B" 1 3 200 1]) st)
    = Fin (num 160).
Proof.
  intros spend total kpi. subst kpi. unfold render; simpl.
  rewrite weighted_spend_sums. fold spend total. split_and!; try done.
  - intros Hne. unfold fdiv. by rewrite decide_False.
  - intros ->. unfold fdiv. rewrite decide_True by done.
    destruct (decide (spend = 0%Qc)); eauto.
  - intros Hz Hnn. unfold fdiv. rewrite decide_True, decide_True; [done| |done].
    apply qsum_all_zero.
    eapply Forall_impl; [apply (qsum_zero _ _ Hnn Hz)|].
    intros r Hr; simpl in Hr. by rewrite Hr, Qcmult_0_r.
  - apply (bool_decide_unpack _). by vm_compute.
Qed.

(** ** Segment summary *)

Lemma nansum_dropna col : nansum col = foldr Qcplus 0%Qc (dropna col).
Proof.
  induction col as [|[x|] col IH]; simpl; [done| |done].
  by rewrite IH.
Qed.

Lemma nanmean_unweighted col : nanmean col = unweighted_mean (dropna col).
Proof.
  unfold nanmean, unweighted_mean. rewrite nansum_dropna.
  by destruct (dropna col).
Qed.

Lemma elem_of_clusters_of rs k :
  k ∈ clusters_of rs ↔ ∃ r, r ∈ rs ∧ Cluster r = Some k.
Proof.
  unfold clusters_of, sorted_Z.
  rewrite elem_of_stable_sort, elem_of_unique, elem_of_dropna, list_elem_of_fmap.
  naive_solver.
Qed.

Lemma NoDup_clusters_of rs : NoDup (clusters_of rs).
Proof. apply NoDup_stable_sort, NoDup_unique. Qed.







(** ** Strategy suggestions *)

Lemma median_is_median col : is_median col (median col).
Proof.
  unfold is_median, median.
  set (s := stable_sort (λ x y, bool_decide (x ≤ y)%Qc) (dropna col)).
  exists s. split_and!.
  - apply stable_sort_Permutation.
  - apply stable_sort_total; [apply _|].
    intros x y. unfold decides. case_bool_decide as Hxy; [done|].
    by apply Qclt_le_weak, Qcnot_le_lt.
  - cbv zeta. fold s. destruct (decide (length s = 0)) as [|Hn]; [done|].
    assert (length s / 2 < length s) as Hhalf by (apply Nat.div_lt; lia).
    destruct (lookup_lt_is_Some_2 s (length s / 2) Hhalf) as [b Hb].
    destruct (lookup_lt_is_Some_2 s (length s / 2 - 1) ltac:(lia)) as [a Ha].
    rewrite Ha, Hb. destruct (Nat.even (length s)); eauto.
Qed.


Lemma cell_ge_spec a b :
  cell_ge a b ↔ ∃ x y, a = Some x ∧ b = Some y ∧ (y ≤ x)%Qc.
Proof.
  destruct a as [x|], b as [y|]; simpl; rewrite ?bool_decide_spec; naive_solver.
Qed.

(** C9. Strategy suggestions for a non-empty summary.  The two thresholds
    are the medians of AvgTotalMonetary and of AvgFrequency over the lines
    of the summary.  The lines are taken in descending order of
    AvgTotalMonetary (lines without a value last) and each gives one
    suggestion, for its cluster: premium when spend and frequency both
    reach their medians, value-add when only spend does, cross-sell when
    only frequency does, re-engagement when neither does.  A value reaches
    the median when it is at least the median, so a value equal to it
    does. *)
Theorem recs_classify_by_medians (first : Seg.t) (others : list Seg.t) :
  let summary := first :: others in
  let med_spend := median (Seg.AvgTotalMonetary <$> summary) in
  let med_freq := median (Seg.AvgFrequency <$> summary) in
  let ordered := sort_values_desc Seg.AvgTotalMonetary summary in
  let high_spend row := cell_ge (Seg.AvgTotalMonetary row) med_spend in
  let high_freq row := cell_ge (Seg.AvgFrequency row) med_freq in
  is_median (Seg.AvgTotalMonetary <$> summary) med_spend ∧
  is_median (Seg.AvgFrequency <$> summary) med_freq ∧
  ordered ≡ₚ summary ∧
  StronglySorted (key_before Seg.AvgTotalMonetary) ordered ∧
  length (recs summary) = length summary ∧
  Forall2 (λ row s,
      cid s = Seg.Cluster row ∧
      (tag s = Premium ↔ high_spend row ∧ high_freq row) ∧
      (tag s = ValueAdd ↔ high_spend row ∧ ¬ high_freq row) ∧
      (tag s = CrossSell ↔ ¬ high_spend row ∧ high_freq row) ∧
      (tag s = ReEngagement ↔ ¬ high_spend row ∧ ¬ high_freq row))
    ordered (recs summary) ∧
  (∀ row, (high_spend row ↔ ∃ x m, Seg.AvgTotalMonetary row = Some x ∧
                                    med_spend = Some m ∧ (m ≤ x)%Qc) ∧
          (high_freq row ↔ ∃ x m, Seg.AvgFrequency row = Some x ∧
                                   med_freq = Some m ∧ (m ≤ x)%Qc)) ∧
  (∀ row m, Seg.AvgTotalMonetary row = Some m → med_spend = Some m → high_spend row) ∧
  (∀ row m, Seg.AvgFrequency row = Some m → med_freq = Some m → high_freq row).
Proof.
  intros summary med_spend med_freq ordered high_spend high_freq.
  assert (recs summary = classify med_spend med_freq <$> ordered) as Hrecs by done.
  split_and!.
  - apply median_is_median.
  - apply median_is_median.
  - apply sort_values_desc_Permutation.
  - apply sort_values_desc_sorted.
  - rewrite Hrecs, length_fmap. unfold ordered.
    by rewrite sort_values_desc_Permutation.
  - rewrite Hrecs. apply Forall2_fmap_r, Forall_Forall2_diag, Forall_forall.
    intros row _. unfold classify, high_spend, high_freq; simpl.
    destruct (cell_ge (Seg.AvgTotalMonetary row) med_spend),
             (cell_ge (Seg.AvgFrequency row) med_freq); simpl; naive_solver.
  - intros row. unfold high_spend, high_freq. by rewrite !cell_ge_spec.
  - intros row m Hrow Hmed. unfold high_spend. rewrite Hrow, Hmed; simpl.
    apply bool_decide_spec, Qcle_refl.
  - intros row m Hrow Hmed. unfold high_freq. rewrite Hrow, Hmed; simpl.
    apply bool_decide_spec, Qcle_refl.
Qed.

(** ** Normalised city profile *)

Lemma foldr_qmax_elem x xs : foldr qmax x xs ∈ x :: xs.
Proof.
  induction xs as [|y xs IH]; simpl; [by left|].
  unfold qmax at 1. case_decide.
  - apply elem_of_cons in IH as [->|?]; [by left|]. by right; right.
  - by right; left.
Qed.

Lemma foldr_qmax_ub x xs z : z ∈ x :: xs → (z ≤ foldr qmax x xs)%Qc.
Proof.
  induction xs as [|y xs IH]; simpl.
  - intros ->%list_elem_of_singleton. apply Qcle_refl.
  - intros Hz. unfold qmax at 1.
    assert (z = y ∨ z ∈ x :: xs) as [->|Hin].
    { apply elem_of_cons in Hz as [->|[->|?]%elem_of_cons];
        [right; by left|by left|right; by right]. }
    + case_decide as Hc; [done|apply Qcle_refl].
    + specialize (IH Hin).
      case_decide as Hc; [done|].
      eapply Qcle_trans; [exact IH|]. by apply Qclt_le_weak, Qcnot_le_lt.
Qed.

Lemma foldr_qmin_elem x xs : foldr qmin x xs ∈ x :: xs.
Proof.
  induction xs as [|y xs IH]; simpl; [by left|].
  unfold qmin at 1. case_decide.
  - by right; left.
  - apply elem_of_cons in IH as [->|?]; [by left|]. by right; right.
Qed.

Lemma foldr_qmin_lb x xs z : z ∈ x :: xs → (foldr qmin x xs ≤ z)%Qc.
Proof.
  induction xs as [|y xs IH]; simpl.
  - intros ->%list_elem_of_singleton. apply Qcle_refl.
  - intros Hz. unfold qmin at 1.
    assert (z = y ∨ z ∈ x :: xs) as [->|Hin].
    { apply elem_of_cons in Hz as [->|[->|?]%elem_of_cons];
        [right; by left|by left|right; by right]. }
    + case_decide as Hc; [apply Qcle_refl|]. by apply Qclt_le_weak, Qcnot_le_lt.
    + specialize (IH Hin).
      case_decide as Hc; [|done].
      by eapply Qcle_trans.
Qed.

Lemma col_max_spec col hi :
  col_max col = Some hi → Some hi ∈ col ∧ ∀ x, Some x ∈ col → (x ≤ hi)%Qc.
Proof.
  unfold col_max. destruct (dropna col) as [|x xs] eqn:E; [done|].
  intros [= <-]. split.
  - apply elem_of_dropna. rewrite E. apply foldr_qmax_elem.
  - intros z Hz%elem_of_dropna. rewrite E in Hz. by apply foldr_qmax_ub.
Qed.

Lemma col_min_spec col lo :
  col_min col = Some lo → Some lo ∈ col ∧ ∀ x, Some x ∈ col → (lo ≤ x)%Qc.
Proof.
  unfold col_min. destruct (dropna col) as [|x xs] eqn:E; [done|].
  intros [= <-]. split.
  - apply elem_of_dropna. rewrite E. apply foldr_qmin_elem.
  - intros z Hz%elem_of_dropna. rewrite E in Hz. by apply foldr_qmin_lb.
Qed.

Lemma Qc_sub_eq_0 a b : (a - b)%Qc = 0%Qc ↔ a = b.
Proof.
  split; [|intros ->; ring].
  intros H. rewrite <-(Qcplus_0_l b), <-H. ring.
Qed.

Lemma normalize_spread col lo hi x :
  col_min col = Some lo → col_max col = Some hi → lo ≠ hi →
  normalize col (Some x) = Some ((x - lo) / (hi - lo))%Qc.
Proof.
  intros Hlo Hhi Hne. unfold normalize. rewrite Hlo, Hhi; simpl.
  rewrite decide_False; [done|].
  intros H%(inj Some). apply (proj1 (Qc_sub_eq_0 hi lo)) in H. by apply Hne.
Qed.

Lemma normalize_flat col lo v :
  col_min col = Some lo → col_max col = Some lo → normalize col v = Some (frac 1 2).
Proof.
  intros Hlo Hhi. unfold normalize. rewrite Hlo, Hhi; simpl.
  rewrite decide_True; [done|]. f_equal. ring.
Qed.

Lemma unit_interval lo hi x :
  (lo < hi)%Qc → (lo ≤ x)%Qc → (x ≤ hi)%Qc →
  (0 ≤ (x - lo) / (hi - lo))%Qc ∧ ((x - lo) / (hi - lo) ≤ 1)%Qc.
Proof.
  intros Hlt Hlo Hhi.
  split; qc_to_q.
  - apply Qle_shift_div_l; lra.
  - apply Qle_shift_div_r; lra.
Qed.

Lemma normalize_extremes lo hi :
  (lo < hi)%Qc →
  ((hi - lo) / (hi - lo))%Qc = 1%Qc ∧ ((lo - lo) / (hi - lo))%Qc = 0%Qc.
Proof.
  intros Hlt.
  assert ((hi - lo)%Qc ≠ 0%Qc) as Hne.
  { intros H. apply (proj1 (Qc_sub_eq_0 hi lo)) in H. subst.
    by destruct (Qclt_not_eq _ _ Hlt). }
  split; by field.
Qed.

Lemma prof_get_prof_norm m cp :
  prof_get m <$> prof_norm cp =
  normalize (prof_get m <$> cp) <$> (prof_get m <$> cp).
Proof.
  unfold prof_norm. rewrite <-!list_fmap_compose.
  apply list_fmap_ext. intros _ p _. by destruct m.
Qed.

Lemma prof_get_city_profile m rs :
  prof_get m <$> city_profile rs =
  (λ c, unweighted_mean (dropna (row_get m <$> filter (λ r, in_city c r) rs)))
    <$> candidate_cities rs.
Proof.
  unfold city_profile. rewrite <-list_fmap_compose.
  apply list_fmap_ext. intros _ c _.
  destruct m; simpl; by rewrite nanmean_unweighted.
Qed.

(** C7 (as amended). The normalised city profile has one line per city of
    the page view, cities ascending; a metric column of it is the column of
    per-city unweighted means, each entry put through the min-max rule of
    the column.  When the column's maximum exceeds its minimum, a city with
    a mean [v] gets (v - min) / (max - min), a value in [0,1], the maximum
    gets 1 and the minimum 0, and a city whose mean is missing stays
    missing.  When maximum and minimum are equal, every city gets 0.5,
    missing mean or not.  When no city has a mean, every entry is
    missing. *)
Theorem prof_norm_min_max (rs : list Row) (m : metric) :
  let cp := city_profile rs in
  let col := prof_get m <$> cp in
  Prof.CustLocation <$> prof_norm cp = candidate_cities rs ∧
  col = (λ c, unweighted_mean (dropna (row_get m <$> filter (λ r, in_city c r) rs)))
          <$> candidate_cities rs ∧
  prof_get m <$> prof_norm cp = normalize col <$> col ∧
  (∀ lo hi, col_min col = Some lo → col_max col = Some hi →
     (Some lo ∈ col ∧ Some hi ∈ col ∧ ∀ x, Some x ∈ col → (lo ≤ x)%Qc ∧ (x ≤ hi)%Qc) ∧
     ((lo < hi)%Qc →
        (∀ x, normalize col (Some x) = Some ((x - lo) / (hi - lo))%Qc) ∧
        (∀ x, Some x ∈ col →
              ∃ y, normalize col (Some x) = Some y ∧ (0 ≤ y)%Qc ∧ (y ≤ 1)%Qc) ∧
        normalize col (Some hi) = Some 1%Qc ∧
        normalize col (Some lo) = Some 0%Qc ∧
        normalize col None = None) ∧
     (lo = hi → ∀ v, normalize col v = Some (frac 1 2))) ∧
  (col_max col = None → ∀ v, normalize col v = None).
Proof.
  intros cp col. split_and!.
  - unfold cp, prof_norm, city_profile. rewrite <-!list_fmap_compose.
    apply list_fmap_id.
  - apply prof_get_city_profile.
  - apply prof_get_prof_norm.
  - intros lo hi Hlo Hhi.
    destruct (col_min_spec _ _ Hlo) as [Hlo_in Hlb].
    destruct (col_max_spec _ _ Hhi) as [Hhi_in Hub].
    split_and!; [done|done|by auto| |].
    + intros Hlt.
      assert (lo ≠ hi) as Hne by (by apply Qclt_not_eq).
      destruct (normalize_extremes lo hi Hlt) as [Hone Hzero].
      split_and!.
      * intros x. by apply normalize_spread.
      * intros x Hx. eexists. split; [by apply normalize_spread|].
        apply unit_interval; auto.
      * by rewrite (normalize_spread col lo hi), Hone.
      * by rewrite (normalize_spread col lo hi), Hzero.
      * unfold normalize. rewrite Hlo, Hhi; simpl. rewrite decide_False; [done|].
        intros H%(inj Some). apply (proj1 (Qc_sub_eq_0 hi lo)) in H. by apply Hne.
    + intros -> v. by apply (normalize_flat col hi).
  - intros Hnone v. unfold normalize. rewrite Hnone; simpl.
    by destruct (cell_sub v (col_min col)).
Qed.

(** With spends 1 and 3 in A and B and none recorded in C, the maximum
    exceeds the minimum and the normalised spend of C is missing: not a
    value in [0,1]. *)
Lemma missing_mean_stays_missing :
  let col := prof_get Spend <$> city_profile spend_unknown_in_C in
  col_min col = Some (num 1) ∧ col_max col = Some (num 3) ∧
  prof_get Spend <$> prof_norm (city_profile spend_unknown_in_C)
    = [Some (num 0); Some (num 1); None] ∧
  ¬ Forall (λ v, ∃ y, v = Some y ∧ (0 ≤ y)%Qc ∧ (y ≤ 1)%Qc)
      (prof_get Spend <$> prof_norm (city_profile spend_unknown_in_C)).
Proof.
  intros col.
  assert (prof_get Spend <$> prof_norm (city_profile spend_unknown_in_C)
          = [Some (num 0); Some (num 1); None]) as Hout.
  { apply (bool_decide_unpack _). by vm_compute. }
  split_and!.
  - apply (bool_decide_unpack _). by vm_compute.
  - apply (bool_decide_unpack _). by vm_compute.
  - done.
  - rewrite Hout. intros H.
    apply Forall_cons_1 in H as [_ H]. apply Forall_cons_1 in H as [_ H].
    apply Forall_cons_1 in H as [(y & ? & _) _]. done.
Qed.

(** * Further properties of the pipeline *)

(** ** Selections that match nothing, and the default selection *)

Lemma filter_ext_in' {A} (P Q : A → Prop) `{!∀ x, Decision (P x), !∀ x, Decision (Q x)}
    (l : list A) :
  Forall (λ x, P x ↔ Q x) l → filter P l = filter Q l.
Proof.
  induction 1 as [|x l Hx _ IH]; [done|].
  rewrite !filter_cons, IH. apply decide_ext, Hx.
Qed.

Lemma sublist_filter_mono {A} (P Q : A → Prop)
    `{!∀ x, Decision (P x), !∀ x, Decision (Q x)} (l : list A) :
  (∀ x, x ∈ l → P x → Q x) → filter P l `sublist_of` filter Q l.
Proof.
  induction l as [|x l IH]; intros Himpl; [done|].
  rewrite !filter_cons.
  assert (filter P l `sublist_of` filter Q l) as Hl.
  { apply IH. intros y Hy. apply Himpl. by right. }
  destruct (decide (P x)) as [HP|HP].
  - rewrite decide_True by (apply Himpl; [by left|done]). by apply sublist_skip.
  - destruct (decide (Q x)); [by apply sublist_cons|done].
Qed.

Lemma paginate_nil st :
  fdf (paginate [] st) = [] ∧ current_cities (paginate [] st) = [] ∧
  (show_all st = false →
     total_pages (paginate [] st) = Some 1 ∧ page (paginate [] st) = Some 1).
Proof.
  unfold paginate. destruct (show_all st); [done|].
  cbn [fdf current_cities total_pages page].
  assert (pages_of [] (page_size st) = 1) as Hone.
  { unfold pages_of. change (candidate_cities []) with (@nil string).
    cbn [length]. rewrite ceil_div_0 by lia. done. }
  rewrite Hone. split_and!; [done| |].
  - unfold page_slice. change (candidate_cities []) with (@nil string).
    by rewrite drop_nil, take_nil.
  - intros _. split; [done|]. f_equal.
    pose proof (number_input_range 1 (Z.of_nat 1) 1 (page_entry st)). lia.
Qed.

(** When no selected city occurs in the data, or no selected cluster does,
    nothing is shown and nothing fails: the filtered frame, the page view,
    the profile, the summary, the suggestions and the download are empty,
    pagination has its one page, and the strategy text is the fallback. *)
Theorem selection_without_match_is_empty (df : DataFrame) (st : FilterState) :
  Forall (λ c, c ∉ all_cities df) (city_sel st) ∨
  Forall (λ k, k ∉ all_clusters df) (cluster_sel st) →
  let d := render df st in
  fdf_base df st = [] ∧
  fdf (shown d) = [] ∧ current_cities (shown d) = [] ∧
  (show_all st = false →
     total_pages (shown d) = Some 1 ∧ page (shown d) = Some 1) ∧
  radar d = [] ∧ segments d = [] ∧ strategy d = [] ∧
  records (download d) = [] ∧
  pivot_long (fdf (shown d)) = [] ∧ treemap_df (fdf (shown d)) = [] ∧
  strategy_markdown (strategy d) = "No segments in current filter.".
Proof.
  intros Hnone d.
  assert (selected df st = []) as Hsel.
  { apply filter_none, Forall_forall. intros r Hr [Hc Hk]%andb_True.
    apply isin_true in Hc as (c & Hc & Hcs). apply isin_true in Hk as (k & Hk & Hks).
    destruct Hnone as [Hn|Hn]; rewrite Forall_forall in Hn.
    - apply (Hn c Hcs), elem_of_all_cities. eauto.
    - apply (Hn k Hks). unfold all_clusters. fold (clusters_of (rows df)).
      apply elem_of_clusters_of. eauto. }
  assert (fdf_base df st = []) as Hbase.
  { unfold fdf_base. rewrite Hsel. by destruct (topn st). }
  destruct (paginate_nil st) as (Hfdf & Hcur & Hpages).
  subst d. unfold render, csv, view; simpl. rewrite Hbase, Hfdf.
  split_and!; done.
Qed.

End Aggregates.

Lemma selection_without_match_is_empty_witness :
  let st := {| city_sel := ["Z"]; cluster_sel := [0%Z]; topn := Some 3%positive;
               page_size := 5%positive; show_all := false; page_entry := 4 |} in
  fdf_base (np := stable_half_even) six_cities st = [] ∧
  total_pages (view (np := stable_half_even) six_cities st) = Some 1.
Proof.
  intros st.
  assert (Forall (λ c, c ∉ all_cities six_cities) (city_sel st) ∨
          Forall (λ k, k ∉ all_clusters six_cities) (cluster_sel st)) as H.
  { left. apply (bool_decide_unpack _). by vm_compute. }
  pose proof (selection_without_match_is_empty (np := stable_half_even) six_cities st H)
    as (H1 & _ & _ & H4 & _).
  split; [exact H1|]. by apply H4.
Defined.

Section Views.
Context {np : Numerics}.

Lemma all_clusters_spec df k :
  k ∈ all_clusters df ↔ ∃ r, r ∈ rows df ∧ Cluster r = Some k.
Proof. apply elem_of_clusters_of. Qed.

Lemma group_key_is_Some r :
  is_Some (group_key r) ↔ is_Some (CustLocation r) ∧ is_Some (Cluster r).
Proof.
  unfold group_key. destruct (CustLocation r), (Cluster r); split;
    try (intros [? ?]; by eauto); intros [[] []]; by eauto.
Qed.

(** The sidebar offers each city and each cluster of the data once, in
    ascending order, and nothing else; and the selection it starts from (all
    of them, no Top-N) passes exactly the rows that have both a city and a
    cluster, in their order. *)
Theorem default_selection_keeps_keyed_rows (df : DataFrame) :
  (StronglySorted String.le (all_cities df) ∧ NoDup (all_cities df) ∧
   ∀ c, c ∈ all_cities df ↔ ∃ r, r ∈ rows df ∧ CustLocation r = Some c) ∧
  (StronglySorted Z.le (all_clusters df) ∧ NoDup (all_clusters df) ∧
   ∀ k, k ∈ all_clusters df ↔ ∃ r, r ∈ rows df ∧ Cluster r = Some k) ∧
  fdf_base df (defaults df) = filter (λ r, is_Some (group_key r)) (rows df).
Proof.
  split_and!.
  - apply sorted_str_sorted.
  - apply NoDup_candidate_cities.
  - apply elem_of_all_cities.
  - apply sorted_Z_sorted.
  - apply NoDup_clusters_of.
  - apply all_clusters_spec.
  - unfold fdf_base, selected; simpl. apply filter_ext_in', Forall_forall.
    intros r Hr. rewrite group_key_is_Some. unfold in_selection; simpl.
    rewrite andb_True, !isin_true. split.
    + intros [(c & -> & _) (k & -> & _)]. by split; eexists.
    + intros [[c Hc] [k Hk]]. split.
      * exists c. split; [done|]. apply elem_of_all_cities. eauto.
      * exists k. split; [done|]. apply all_clusters_spec. eauto.
Qed.

(** ** Pages *)

Lemma StronglySorted_slice {A} (R : relation A) (l : list A) a s :
  StronglySorted R l → StronglySorted R (take s (drop a l)).
Proof.
  intros Hl. rewrite <-(take_drop a l) in Hl.
  apply StronglySorted_app_1_r in Hl.
  rewrite <-(take_drop s (drop a l)) in Hl.
  by apply StronglySorted_app_1_l in Hl.
Qed.

Lemma page_slice_sublist base size p :
  page_slice base size p `sublist_of` candidate_cities base.
Proof.
  unfold page_slice. etrans; [apply sublist_take|apply sublist_drop].
Qed.

Lemma cities_of_page_rows base size p c :
  c ∈ cities_of (page_rows base size p) ↔ c ∈ page_slice base size p.
Proof.
  rewrite elem_of_cities_of. unfold page_rows. split.
  - intros (r & [Hin _]%list_elem_of_filter & Hc).
    apply isin_true in Hin as (c' & ? & ?). congruence.
  - intros Hc.
    assert (c ∈ candidate_cities base) as (r & Hr & Hrc)%elem_of_candidate_cities.
    { eapply sublist_elem_of; [apply page_slice_sublist|done]. }
    exists r. split; [|done]. apply list_elem_of_filter. split; [|done].
    apply isin_true. eauto.
Qed.

Lemma current_cities_sorted_aux (base : list Row) (st : FilterState) :
  current_cities (paginate base st) = sorted_str (cities_of (fdf (paginate base st))) ∧
  length (current_cities (paginate base st)) = length (cities_of (fdf (paginate base st))).
Proof.
  assert (current_cities (paginate base st)
          = sorted_str (cities_of (fdf (paginate base st)))) as Heq.
  { unfold paginate. destruct (show_all st); [done|].
    cbn [fdf current_cities]. symmetry. apply sorted_str_of_sorted.
    - apply StronglySorted_slice, candidate_cities_sorted.
    - apply NoDup_Permutation; [apply NoDup_cities_of| |apply cities_of_page_rows].
      eapply sublist_NoDup; [apply NoDup_candidate_cities|apply page_slice_sublist]. }
  split; [done|]. rewrite Heq. apply length_stable_sort.
Qed.

(** The cities a view names are the cities its rows have: [current_cities],
    whose length the bar chart's title reports, is the ascending list of the
    distinct cities of [fdf], with "show all" and on every page. *)
Theorem current_cities_are_those_of_the_view (base : list Row) (st : FilterState) :
  let v := paginate base st in
  current_cities v = sorted_str (cities_of (fdf v)) ∧
  length (current_cities v) = length (cities_of (fdf v)) ∧
  ∀ c, c ∈ current_cities v ↔ ∃ r, r ∈ fdf v ∧ CustLocation r = Some c.
Proof.
  intros v. destruct (current_cities_sorted_aux base st) as [Heq Hlen].
  split_and!; [done|done|].
  intros c. subst v. rewrite Heq. unfold sorted_str.
  by rewrite elem_of_stable_sort, elem_of_cities_of.
Qed.

Lemma length_page_slice base size p :
  length (page_slice base size p) =
  Nat.min (Pos.to_nat size)
          (length (candidate_cities base) - (p - 1) * Pos.to_nat size).
Proof. unfold page_slice. by rewrite length_take, length_drop. Qed.

(** Every page the page box can reach is used: with "show all" off and
    whatever is typed into the box, the page shown lies in 1..total_pages and
    holds at most page_size cities, exactly page_size before the last page,
    and at least one city with at least one row as soon as the frame has a
    city at all. *)
Theorem pages_are_full_and_never_blank (base : list Row) (st : FilterState) (entry : nat) :
  let v := paginate base (turn_page st entry) in
  let size := Pos.to_nat (page_size st) in
  ∃ p total,
    page v = Some p ∧ total_pages v = Some total ∧ 1 ≤ p ≤ total ∧
    length (current_cities v) ≤ size ∧
    (p < total → length (current_cities v) = size) ∧
    (p = total →
       length (current_cities v) = length (candidate_cities base) - (total - 1) * size) ∧
    (candidate_cities base ≠ [] → current_cities v ≠ [] ∧ fdf v ≠ []).
Proof.
  intros v size. subst v. unfold paginate; cbn [show_all turn_page page_size page_entry].
  cbn [fdf current_cities total_pages page].
  set (total := pages_of base (page_size st)).
  set (p := Z.to_nat (number_input 1 (Z.of_nat total) 1 (Z.of_nat entry))).
  pose proof (pages_of_pos base (page_size st)) as Hpos. fold total in Hpos.
  assert (1 ≤ p ≤ total) as Hp.
  { pose proof (number_input_range 1 (Z.of_nat total) 1 (Z.of_nat entry)).
    unfold p. lia. }
  pose proof (ceil_div_spec (length (candidate_cities base)) size ltac:(unfold size; lia))
    as [Hlow Hhigh].
  assert (total = Nat.max 1 (ceil_div (length (candidate_cities base)) size)) as Htotal
    by done.
  assert (0 < size) as Hsize by (unfold size; lia).
  exists p, total. rewrite length_page_slice. fold size.
  split_and!; [done|done|lia|lia|lia| | |].
  - intros Hlt. nia.
  - intros ->. nia.
  - intros Hne.
    assert (length (candidate_cities base) ≠ 0) as Hlen by (by destruct (candidate_cities base)).
    assert (page_slice base (page_size st) p ≠ []) as Hslice.
    { intros Hnil%(f_equal length). rewrite length_page_slice in Hnil.
      fold size in Hnil. simpl in Hnil. nia. }
    split; [done|].
    destruct (page_slice base (page_size st) p) as [|c cs] eqn:E; [done|].
    assert (c ∈ cities_of (page_rows base (page_size st) p)) as Hc.
    { apply cities_of_page_rows. rewrite E. by left. }
    apply elem_of_cities_of in Hc as (r & Hr & _).
    intros Hnil. rewrite Hnil in Hr. by apply elem_of_nil in Hr.
Qed.

(** ** Top-N with the other controls *)

Lemma ceil_div_mono n m d : n ≤ m → ceil_div n d ≤ ceil_div m d.
Proof. intros H. unfold ceil_div. apply Nat.Div0.div_le_mono. lia. Qed.

Lemma length_cities_of_kept n base :
  length (cities_of (filter (λ r, isin (CustLocation r) (keep_cities n base)) base))
  ≤ Pos.to_nat n.
Proof.
  etrans; [apply (NoDup_subseteq_length _ (keep_cities n base))|].
  - apply NoDup_cities_of.
  - intros c. apply elem_of_cities_of_kept.
  - rewrite length_keep_cities. lia.
Qed.

(** Top-N combines with pagination: with the Top-N slider at n the filtered
    frame has at most n cities, so paging it takes at most ceil(n / page
    size) pages (one page at least). *)
Theorem top_n_bounds_the_pages (df : DataFrame) (st : FilterState) (n : positive) :
  let base := fdf_base df (limit_to st n) in
  length (candidate_cities base) ≤ Pos.to_nat n ∧
  pages_of base (page_size st) ≤
    Nat.max 1 (ceil_div (Pos.to_nat n) (Pos.to_nat (page_size st))) ∧
  ∀ entry, ∃ total,
    total_pages (view df (turn_page (limit_to st n) entry)) = Some total ∧
    total ≤ Nat.max 1 (ceil_div (Pos.to_nat n) (Pos.to_nat (page_size st))).
Proof.
  intros base.
  assert (length (candidate_cities base) ≤ Pos.to_nat n) as Hlen.
  { rewrite length_candidate_cities. apply length_cities_of_kept. }
  assert (pages_of base (page_size st) ≤
          Nat.max 1 (ceil_div (Pos.to_nat n) (Pos.to_nat (page_size st)))) as Hpages.
  { unfold pages_of.
    pose proof (ceil_div_mono _ _ (Pos.to_nat (page_size st)) Hlen). lia. }
  split_and!; [done|done|].
  intros entry. by exists (pages_of base (page_size st)).
Qed.

Lemma take_subseteq_take {A} (l : list A) n m : n ≤ m → take n l ⊆ take m l.
Proof.
  intros Hnm x Hx. rewrite <-(Nat.min_l n m), <-take_take in Hx by lia.
  eapply sublist_elem_of; [apply sublist_take|done].
Qed.

(** Raising the Top-N slider only adds rows: the frame kept at n is, in
    order, part of the frame kept at n + k; and either is part of the frame
    filtered by city and cluster alone. *)
Theorem raising_top_n_only_adds_rows (df : DataFrame) (st : FilterState) (n k : positive) :
  fdf_base df (limit_to st n) `sublist_of` fdf_base df (limit_to st (n + k)) ∧
  fdf_base df (limit_to st (n + k)) `sublist_of` selected df st.
Proof.
  split; [|apply (fdf_base_sublist df (limit_to st (n + k)))].
  unfold fdf_base; cbn [topn limit_to].
  change (selected df (limit_to st n)) with (selected df st).
  change (selected df (limit_to st (n + k))) with (selected df st).
  apply sublist_filter_mono. intros r _ (c & Hc & Hin)%isin_true.
  apply isin_true. exists c. split; [done|].
  unfold keep_cities in *. apply list_elem_of_fmap in Hin as (e & -> & He).
  apply list_elem_of_fmap. exists e. split; [done|].
  eapply take_subseteq_take; [|done]. lia.
Qed.

(** ** Grouped sums *)

Lemma qtotal_app l1 l2 : qtotal (l1 ++ l2) = (qtotal l1 + qtotal l2)%Qc.
Proof.
  induction l1 as [|x l1 IH]; simpl; [by rewrite Qcplus_0_l|].
  by rewrite IH, Qcplus_assoc.
Qed.

Lemma qtotal_Permutation l1 l2 : l1 ≡ₚ l2 → qtotal l1 = qtotal l2.
Proof.
  induction 1 as [|x l1 l2 _ IH|x y l|l1 l2 l3 _ IH1 _ IH2]; simpl; try congruence.
  rewrite !Qcplus_assoc. f_equal. apply Qcplus_comm.
Qed.

Lemma nansum_join (groups : list (list cell)) :
  nansum (mjoin groups) = qtotal (nansum <$> groups).
Proof.
  induction groups as [|g groups IH]; [done|].
  simpl. by rewrite nansum_app, IH.
Qed.

Lemma fmap_mjoin {A B} (f : A → B) (ls : list (list A)) :
  f <$> mjoin ls = mjoin (fmap f <$> ls).
Proof.
  induction ls as [|l ls IH]; [done|]. simpl. by rewrite fmap_app, IH.
Qed.

Section Grouping.
Context {K : Type} `{EqDecision K} (key : Row → option K).

(** The groups of a [groupby]: the rows with a key, each in the group of
    its key. *)
Lemma groups_Permutation (keys : list K) (rs : list Row) :
  NoDup keys →
  Forall (λ r, ∀ k, key r = Some k → k ∈ keys) rs →
  mjoin ((λ k, filter (λ r, key r = Some k) rs) <$> keys)
    ≡ₚ filter (λ r, is_Some (key r)) rs.
Proof.
  revert rs. induction keys as [|k keys IH]; intros rs Hnd Hall; simpl.
  - rewrite filter_none; [done|]. apply Forall_forall. intros r Hr [k Hk].
    rewrite Forall_forall in Hall. by apply (elem_of_nil k), (Hall r Hr).
  - apply NoDup_cons in Hnd as [Hk Hnd].
    etrans; [|apply (filter_app_complement (λ r, key r = Some k))].
    apply Permutation_app.
    + apply reflexive_eq. symmetry. apply list_filter_filter_l.
      intros r Hr. rewrite Hr. by eexists.
    + assert (filter (λ r, ¬ key r = Some k) (filter (λ r, is_Some (key r)) rs)
              = filter (λ r, is_Some (key r)) (filter (λ r, ¬ key r = Some k) rs)) as ->.
      { rewrite !list_filter_filter. apply list_filter_iff. naive_solver. }
      rewrite <-(IH (filter (λ r, ¬ key r = Some k) rs) Hnd).
      * apply reflexive_eq. f_equal. apply list_fmap_ext.
        intros i k' Hk'%list_elem_of_lookup_2.
        rewrite list_filter_filter. apply list_filter_iff.
        intros r. split; [|naive_solver]. intros Hr. split; [done|].
        rewrite Hr. intros [= ->]. done.
      * apply Forall_forall. intros r [Hne Hr]%list_elem_of_filter k' Hk'.
        rewrite Forall_forall in Hall. specialize (Hall r Hr k' Hk').
        apply elem_of_cons in Hall as [->|?]; [done|done].
Qed.

Lemma group_sums (f : Row → cell) (keys : list K) (rs : list Row) :
  NoDup keys →
  Forall (λ r, ∀ k, key r = Some k → k ∈ keys) rs →
  qtotal ((λ k, nansum (f <$> filter (λ r, key r = Some k) rs)) <$> keys)
  = nansum (f <$> filter (λ r, is_Some (key r)) rs).
Proof.
  intros Hnd Hall.
  rewrite <-(nansum_Permutation _ _ (fmap_Permutation f _ _ (groups_Permutation keys rs Hnd Hall))).
  rewrite fmap_mjoin, nansum_join, <-!list_fmap_compose. done.
Qed.
End Grouping.

(** ** Totals per city and per cluster *)

Lemma city_total_alt rs c :
  city_total rs c = nansum (CustomerCount <$> filter (λ r, CustLocation r = Some c) rs).
Proof.
  unfold city_total, in_city. do 2 f_equal. apply list_filter_iff.
  intros r. apply bool_decide_spec.
Qed.

Lemma cluster_total_alt rs k :
  cluster_total rs k = nansum (CustomerCount <$> filter (λ r, Cluster r = Some k) rs).
Proof.
  unfold cluster_total, in_cluster. do 2 f_equal. apply list_filter_iff.
  intros r. apply bool_decide_spec.
Qed.

Lemma in_selection_keyed st r :
  in_selection st r → is_Some (CustLocation r) ∧ is_Some (Cluster r).
Proof.
  unfold in_selection. intros [(c & -> & _)%isin_true (k & -> & _)%isin_true]%andb_True.
  by split; eexists.
Qed.

Lemma view_rows_keyed df st :
  Forall (λ r, is_Some (CustLocation r) ∧ is_Some (Cluster r)) (fdf (view df st)).
Proof.
  apply Forall_forall. intros r [_ Hr]%view_selected. by eapply in_selection_keyed.
Qed.

Lemma city_totals_sum rs :
  qtotal (city_totals_all rs).*2 = nansum (CustomerCount <$> filter has_city rs).
Proof.
  unfold city_totals_all.
  rewrite (qtotal_Permutation _ _
    (fmap_Permutation snd _ _ (sort_values_desc_Permutation _ _))).
  unfold groupby_city_sum. rewrite <-list_fmap_compose.
  etrans; [|apply (group_sums CustLocation CustomerCount (candidate_cities rs) rs)].
  - f_equal. apply list_fmap_ext. intros _ c _; simpl. apply city_total_alt.
  - apply NoDup_candidate_cities.
  - apply Forall_forall. intros r Hr c Hc. apply elem_of_candidate_cities. eauto.
Qed.

Lemma seg_mix_sum rs :
  qtotal (seg_mix rs).*2 =
  nansum (CustomerCount <$> filter (λ r, is_Some (Cluster r)) rs).
Proof.
  unfold seg_mix.
  rewrite (qtotal_Permutation _ _
    (fmap_Permutation snd _ _ (sort_values_desc_Permutation _ _))).
  rewrite <-list_fmap_compose.
  etrans; [|apply (group_sums Cluster CustomerCount (clusters_of rs) rs)].
  - f_equal. apply list_fmap_ext. intros _ k _; simpl. apply cluster_total_alt.
  - apply NoDup_clusters_of.
  - apply Forall_forall. intros r Hr k Hk. apply elem_of_clusters_of. eauto.
Qed.

(** The bars of "Total Customers by City" add up: the per-city totals of a
    frame sum to the CustomerCount of its rows that have a city, and for the
    page view, whose rows all have one, to the CustomerCount of the view.
    The totals come one per city, largest first. *)
Theorem city_totals_add_up (df : DataFrame) (st : FilterState) (rs : list Row) :
  qtotal (city_totals_all rs).*2 = nansum (CustomerCount <$> filter has_city rs) ∧
  qtotal (city_totals_all (fdf (view df st))).*2
    = nansum (CustomerCount <$> fdf (view df st)) ∧
  (city_totals_all rs).*1 ≡ₚ cities_of rs ∧
  StronglySorted (key_before (λ e, Some e.2)) (city_totals_all rs).
Proof.
  split_and!.
  - apply city_totals_sum.
  - rewrite city_totals_sum. do 2 f_equal. apply filter_all.
    eapply Forall_impl; [apply view_rows_keyed|]. by intros r [? _].
  - apply fst_city_totals_all.
  - apply sort_values_desc_sorted.
Qed.

(** "Leading segments": the per-cluster totals come one per cluster of the
    frame, largest first; they sum to the CustomerCount of the rows that
    have a cluster, for the page view to that of the whole view; and the
    CustomerCount of a line of the segment summary is the total of its
    cluster, rounded. *)
Theorem seg_mix_add_up (df : DataFrame) (st : FilterState) (rs : list Row) :
  (seg_mix rs).*1 ≡ₚ clusters_of rs ∧
  (∀ k x, (k, x) ∈ seg_mix rs → x = cluster_total rs k) ∧
  StronglySorted (key_before (λ e, Some e.2)) (seg_mix rs) ∧
  qtotal (seg_mix rs).*2
    = nansum (CustomerCount <$> filter (λ r, is_Some (Cluster r)) rs) ∧
  qtotal (seg_mix (fdf (view df st))).*2 = nansum (CustomerCount <$> fdf (view df st)) ∧
  (∀ s, s ∈ seg_summary rs →
        (Seg.Cluster s, cluster_total rs (Seg.Cluster s)) ∈ seg_mix rs ∧
        Seg.CustomerCount s = round2 (cluster_total rs (Seg.Cluster s))).
Proof.
  assert (∀ e, e ∈ seg_mix rs ↔ ∃ k, k ∈ clusters_of rs ∧ e = (k, cluster_total rs k))
    as Hmix.
  { intros e. unfold seg_mix.
    rewrite sort_values_desc_Permutation, list_elem_of_fmap. naive_solver. }
  split_and!.
  - unfold seg_mix. rewrite sort_values_desc_Permutation, <-list_fmap_compose.
    apply reflexive_eq, list_fmap_id.
  - intros k x (k' & _ & ?)%Hmix. by simplify_eq.
  - apply sort_values_desc_sorted.
  - apply seg_mix_sum.
  - rewrite seg_mix_sum. do 2 f_equal. apply filter_all.
    eapply Forall_impl; [apply view_rows_keyed|]. by intros r [_ ?].
  - intros s (k & -> & Hk)%list_elem_of_fmap; simpl. split; [|done].
    apply Hmix. eauto.
Qed.

(** ** Treemap and pivot *)

Lemma string_compare_refl s : String.compare s s = Eq.
Proof.
  induction s as [|a s IH]; simpl; [done|].
  unfold Ascii.compare. by rewrite N.compare_refl.
Qed.

Lemma string_compare_cases a b :
  match String.compare a b with
  | Lt => String.le a b ∧ a ≠ b
  | Eq => a = b
  | Gt => String.le b a ∧ a ≠ b
  end.
Proof.
  destruct (String.compare a b) eqn:E.
  - by apply String.compare_eq_iff.
  - split.
    + unfold String.le, String.leb. by rewrite E.
    + intros ->. by rewrite string_compare_refl in E.
  - split.
    + unfold String.le, String.leb. rewrite String.compare_antisym, E. done.
    + intros ->. by rewrite string_compare_refl in E.
Qed.

Global Instance pair_le_trans : Transitive pair_le.
Proof.
  intros a b c [Hab Hab'] [Hbc Hbc']. split; [by trans b.1|].
  intros Hac. rewrite Hac in Hab.
  assert (b.1 = c.1) as Hb by (by apply (anti_symm String.le)).
  assert (a.1 = b.1) as Ha by congruence.
  specialize (Hab' Ha). specialize (Hbc' Hb). lia.
Qed.

Lemma pair_leb_decides a b : decides pair_leb pair_le a b.
Proof.
  unfold decides, pair_leb, pair_le.
  pose proof (string_compare_cases a.1 b.1) as H.
  destruct (String.compare a.1 b.1).
  - rewrite H. destruct (Z.leb_spec a.2 b.2); (split; [done|intros _; lia]).
  - destruct H as [Hle Hne]. split; [done|]. by intros ?.
  - destruct H as [Hle Hne]. split; [done|]. by intros ?.
Qed.

Lemma group_keys_sorted rs : StronglySorted pair_le (group_keys rs).
Proof. apply stable_sort_total; [apply _|apply pair_leb_decides]. Qed.

Lemma NoDup_group_keys rs : NoDup (group_keys rs).
Proof. apply NoDup_stable_sort, NoDup_unique. Qed.

Lemma elem_of_group_keys rs ck :
  ck ∈ group_keys rs ↔ ∃ r, r ∈ rs ∧ group_key r = Some ck.
Proof.
  unfold group_keys. rewrite elem_of_stable_sort, elem_of_unique, list_elem_of_omap.
  done.
Qed.

Lemma group_key_Some r c k :
  group_key r = Some (c, k) ↔ CustLocation r = Some c ∧ Cluster r = Some k.
Proof.
  unfold group_key. destruct (CustLocation r), (Cluster r); naive_solver.
Qed.

Lemma treemap_sum rs :
  qtotal (treemap_df rs).*2 =
  nansum (CustomerCount <$> filter (λ r, is_Some (group_key r)) rs).
Proof.
  unfold treemap_df. rewrite <-list_fmap_compose.
  etrans; [|apply (group_sums group_key CustomerCount (group_keys rs) rs)].
  - done.
  - apply NoDup_group_keys.
  - apply Forall_forall. intros r Hr ck Hck. apply elem_of_group_keys. eauto.
Qed.

Lemma view_rows_group_keyed df st :
  Forall (λ r, is_Some (group_key r)) (fdf (view df st)).
Proof.
  eapply Forall_impl; [apply view_rows_keyed|].
  intros r. by rewrite group_key_is_Some.
Qed.

(** The treemap, and the grouped bars of "Segment Mix by City": one line per
    pair of city and cluster that has a row, pairs in ascending order (city,
    then cluster), each with the CustomerCount summed over its rows; the
    lines sum to the CustomerCount of the rows that have both keys, for the
    page view to that of the whole view. *)
Theorem treemap_lines_partition_the_view (df : DataFrame) (st : FilterState)
    (rs : list Row) :
  (∀ c k x, (c, k, x) ∈ treemap_df rs ↔
            (∃ r, r ∈ rs ∧ CustLocation r = Some c ∧ Cluster r = Some k) ∧
            x = group_total rs (c, k)) ∧
  NoDup (treemap_df rs).*1 ∧
  StronglySorted pair_le (treemap_df rs).*1 ∧
  qtotal (treemap_df rs).*2
    = nansum (CustomerCount <$> filter (λ r, is_Some (group_key r)) rs) ∧
  qtotal (treemap_df (fdf (view df st))).*2 = nansum (CustomerCount <$> fdf (view df st)).
Proof.
  assert ((treemap_df rs).*1 = group_keys rs) as Hkeys.
  { unfold treemap_df. rewrite <-list_fmap_compose. apply list_fmap_id. }
  split_and!.
  - intros c k x. unfold treemap_df. rewrite list_elem_of_fmap. split.
    + intros ([c' k'] & Heq & (r & Hr & Hk)%elem_of_group_keys).
      simplify_eq. apply group_key_Some in Hk. naive_solver.
    + intros [(r & Hr & Hc & Hk) ->]. exists (c, k). split; [done|].
      apply elem_of_group_keys. exists r. split; [done|]. by apply group_key_Some.
  - rewrite Hkeys. apply NoDup_group_keys.
  - rewrite Hkeys. apply group_keys_sorted.
  - apply treemap_sum.
  - rewrite treemap_sum. do 2 f_equal. apply filter_all, view_rows_group_keyed.
Qed.

Lemma filter_fmap {A B} (f : A → B) (P : B → Prop) `{!∀ y, Decision (P y)} (l : list A) :
  filter P (f <$> l) = f <$> filter (λ x, P (f x)) l.
Proof.
  induction l as [|x l IH]; [done|].
  rewrite fmap_cons, !filter_cons, IH. by destruct (decide (P (f x))).
Qed.

Section CityLead.
Context (rs : list Row).
Hypothesis keyed : Forall (λ r, is_Some (CustLocation r) → is_Some (Cluster r)) rs.

Lemma treemap_cities :
  sorted_str (unique ((λ e, e.1.1) <$> treemap_df rs)) = candidate_cities rs.
Proof.
  apply sorted_str_of_sorted; [apply candidate_cities_sorted|].
  apply NoDup_Permutation; [apply NoDup_unique|apply NoDup_candidate_cities|].
  intros c. rewrite elem_of_unique, elem_of_candidate_cities, list_elem_of_fmap.
  unfold treemap_df. setoid_rewrite list_elem_of_fmap. split.
  - intros (e & Hce & [c' k] & -> & (r & Hr & Hk)%elem_of_group_keys).
    simpl in Hce. subst c'. apply group_key_Some in Hk as [? _]. eauto.
  - intros (r & Hr & Hc). rewrite Forall_forall in keyed.
    destruct (keyed r Hr) as [k Hk]; [by eexists|].
    exists (c, k, group_total rs (c, k)). split; [done|].
    exists (c, k). split; [done|]. apply elem_of_group_keys.
    exists r. split; [done|]. by apply group_key_Some.
Qed.

Lemma treemap_city_sum c :
  qtotal (filter (λ e, e.1.1 = c) (treemap_df rs)).*2 = city_total rs c.
Proof.
  unfold treemap_df. rewrite filter_fmap, <-list_fmap_compose; simpl.
  set (keys := filter (λ ck : string * Z, ck.1 = c) (group_keys rs)).
  set (key := λ r, if decide (CustLocation r = Some c) then group_key r else None).
  rewrite city_total_alt.
  trans (nansum (CustomerCount <$> filter (λ r, is_Some (key r)) rs)).
  - etrans; [|apply (group_sums key CustomerCount keys rs)].
    + f_equal. apply list_fmap_ext.
      intros i [c' k] [Hc _]%list_elem_of_lookup_2%list_elem_of_filter; simpl in *.
      subst c'. unfold group_total. do 2 f_equal. apply list_filter_iff.
      intros r. unfold key. case_decide as Hc; [done|].
      split; [|done]. by intros [? _]%group_key_Some.
    + apply list.NoDup_filter, NoDup_group_keys.
    + apply Forall_forall. intros r Hr [c' k]. unfold key.
      case_decide as Hc; [|done]. intros Hk. apply list_elem_of_filter.
      split; [|apply elem_of_group_keys; eauto].
      apply group_key_Some in Hk as [? _]. simpl. congruence.
  - do 2 f_equal. apply filter_ext_in'.
    eapply Forall_impl; [exact keyed|]. intros r Hr. unfold key.
    case_decide as Hc; [|split; [by intros []|done]].
    split; [done|]. intros _. apply group_key_is_Some. split; [by eexists|].
    apply Hr. by eexists.
Qed.

Lemma city_lead_ranking : city_lead rs = take 3 (city_totals_all rs).
Proof.
  unfold city_lead, city_totals_all, groupby_city_sum.
  rewrite treemap_cities. do 2 f_equal. apply list_fmap_ext.
  intros _ c _. f_equal. apply treemap_city_sum.
Qed.
End CityLead.

(** "Top cities by customers" in the highlights: although computed from the
    treemap lines, they are the first three entries of the ranking of the
    cities of the page view by total CustomerCount, the cities that Top-N at
    3 would keep on this view; three of them, or as many as the view has. *)
Theorem highlights_name_the_top_three_cities (df : DataFrame) (st : FilterState) :
  let v := fdf (view df st) in
  city_lead v = take 3 (city_totals_all v) ∧
  (city_lead v).*1 = keep_cities 3 v ∧
  length (city_lead v) = Nat.min 3 (length (current_cities (view df st))) ∧
  ∀ c x, (c, x) ∈ city_lead v → x = city_total v c.
Proof.
  intros v.
  assert (city_lead v = take 3 (city_totals_all v)) as Heq.
  { apply city_lead_ranking.
    eapply Forall_impl; [apply view_rows_keyed|]. by intros r [_ ?] _. }
  split_and!.
  - done.
  - by rewrite Heq.
  - rewrite Heq, length_take, length_city_totals_all. f_equal. symmetry.
    apply (current_cities_sorted_aux (fdf_base df st) st).
  - intros c x Hin. rewrite Heq in Hin.
    apply (sublist_elem_of _ _ _ (sublist_take _ _)), elem_of_city_totals_all in Hin
      as (c' & _ & ?). by simplify_eq.
Qed.

Lemma group_total_absent rs ck : ck ∉ group_keys rs → group_total rs ck = 0%Qc.
Proof.
  intros Hck. unfold group_total. rewrite filter_none; [done|].
  apply Forall_forall. intros r Hr Hk. apply Hck, elem_of_group_keys. eauto.
Qed.

Lemma pivot_cell_total rs c k : pivot_cell rs c k = group_total rs (c, k).
Proof.
  unfold pivot_cell. case_decide; [done|]. symmetry. by apply group_total_absent.
Qed.

Lemma qtotal_join (ls : list (list Qc)) : qtotal (mjoin ls) = qtotal (qtotal <$> ls).
Proof.
  induction ls as [|l ls IH]; [done|]. simpl. by rewrite qtotal_app, IH.
Qed.

Lemma length_join_const {A} (ls : list (list A)) n :
  Forall (λ l, length l = n) ls → length (mjoin ls) = length ls * n.
Proof.
  induction 1 as [|l ls Hl _ IH]; [done|]. simpl. rewrite length_app, IH. lia.
Qed.

Lemma elem_of_pivot_index rs c : c ∈ pivot_index rs ↔ ∃ k, (c, k) ∈ group_keys rs.
Proof.
  unfold pivot_index, sorted_str.
  rewrite elem_of_stable_sort, elem_of_unique, list_elem_of_fmap. split.
  - intros ([c' k] & -> & ?). eauto.
  - intros (k & ?). by exists (c, k).
Qed.

Lemma elem_of_pivot_columns rs k : k ∈ pivot_columns rs ↔ ∃ c, (c, k) ∈ group_keys rs.
Proof.
  unfold pivot_columns, sorted_Z.
  rewrite elem_of_stable_sort, elem_of_unique, list_elem_of_fmap. split.
  - intros ([c k'] & -> & ?). eauto.
  - intros (c & ?). by exists (c, k).
Qed.

Lemma pivot_long_alt rs :
  pivot_long rs =
  mjoin ((λ k, (λ c, (c, k, pivot_cell rs c k)) <$> pivot_index rs) <$> pivot_columns rs).
Proof.
  unfold pivot_long, melt, pivot. f_equal.
  rewrite <-(imap_const (λ k, (λ c, (c, k, pivot_cell rs c k)) <$> pivot_index rs)).
  apply imap_ext. intros j k Hj; simpl.
  induction (pivot_index rs) as [|c idx IH]; [done|].
  rewrite !fmap_cons. cbn [omap list_omap fst snd].
  rewrite list_lookup_fmap, Hj; simpl. by rewrite <-IH.
Qed.

Lemma pivot_column_sum rs k :
  qtotal ((λ c, group_total rs (c, k)) <$> pivot_index rs)
  = nansum (CustomerCount <$> filter (λ r, snd <$> group_key r = Some k) rs).
Proof.
  set (key := λ r, if decide (snd <$> group_key r = Some k)
                   then fst <$> group_key r else None).
  trans (nansum (CustomerCount <$> filter (λ r, is_Some (key r)) rs)).
  - etrans; [|apply (group_sums key CustomerCount (pivot_index rs) rs)].
    + f_equal. apply list_fmap_ext. intros _ c _. unfold group_total.
      do 2 f_equal. apply list_filter_iff. intros r. unfold key.
      destruct (group_key r) as [[c' k']|]; simpl; [|done].
      case_decide; naive_solver.
    + apply NoDup_stable_sort, NoDup_unique.
    + apply Forall_forall. intros r Hr c. unfold key.
      destruct (group_key r) as [[c' k']|] eqn:E; simpl; [|done].
      case_decide; [|done]. intros [= ->]. apply elem_of_pivot_index.
      exists k'. apply elem_of_group_keys. eauto.
  - do 2 f_equal. apply list_filter_iff. intros r. unfold key.
    destruct (group_key r) as [[c' k']|]; simpl.
    + case_decide; [split; [done|by eexists]|]. split; [by intros []|done].
    + split; [by intros []|done].
Qed.

Lemma pivot_sum rs :
  qtotal (pivot_long rs).*2 =
  nansum (CustomerCount <$> filter (λ r, is_Some (group_key r)) rs).
Proof.
  rewrite pivot_long_alt, fmap_mjoin, qtotal_join, <-!list_fmap_compose.
  trans (nansum (CustomerCount <$> filter (λ r, is_Some (snd <$> group_key r)) rs)).
  - etrans; [|apply (group_sums (λ r, snd <$> group_key r) CustomerCount
                        (pivot_columns rs) rs)].
    + f_equal. apply list_fmap_ext. intros _ k _; simpl.
      rewrite <-list_fmap_compose, <-pivot_column_sum. f_equal.
      apply list_fmap_ext. intros _ c _; simpl. apply pivot_cell_total.
    + apply NoDup_stable_sort, NoDup_unique.
    + apply Forall_forall. intros r Hr k.
      destruct (group_key r) as [[c' k']|] eqn:E; simpl; [|done].
      intros [= ->]. apply elem_of_pivot_columns. exists c'.
      apply elem_of_group_keys. eauto.
  - do 2 f_equal. apply list_filter_iff. intros r.
    destruct (group_key r); simpl; split; intros [? ?]; by eauto.
Qed.

Lemma pivot_index_keyed rs :
  Forall (λ r, is_Some (CustLocation r) → is_Some (Cluster r)) rs →
  pivot_index rs = candidate_cities rs.
Proof.
  intros keyed. rewrite <-(treemap_cities rs keyed). unfold pivot_index, treemap_df.
  by rewrite <-list_fmap_compose.
Qed.

(** The stacked bars of "Customer Distribution by City & Segment".  The
    pivot has a line per city and a column per cluster of the groups, and
    its long form one entry per city and cluster, column after column: the
    CustomerCount summed over the rows of that city and cluster, which is 0
    where there is no such row.  Every treemap line is among the entries,
    and the entries sum to the CustomerCount of the rows with both keys; on
    the page view the cities of the pivot are [current_cities] and the
    entries sum to the CustomerCount of the view. *)
Theorem pivot_fills_the_grid (df : DataFrame) (st : FilterState) (rs : list Row) :
  Forall (λ line, length line.2 = length (pivot_columns rs)) (pivot rs) ∧
  (pivot rs).*1 = pivot_index rs ∧
  pivot_long rs =
    mjoin ((λ k, (λ c, (c, k, pivot_cell rs c k)) <$> pivot_index rs) <$> pivot_columns rs) ∧
  length (pivot_long rs) = length (pivot_columns rs) * length (pivot_index rs) ∧
  (∀ c k, pivot_cell rs c k = group_total rs (c, k)) ∧
  (∀ c k, (¬ ∃ r, r ∈ rs ∧ CustLocation r = Some c ∧ Cluster r = Some k) →
          pivot_cell rs c k = 0%Qc) ∧
  treemap_df rs ⊆ pivot_long rs ∧
  qtotal (pivot_long rs).*2
    = nansum (CustomerCount <$> filter (λ r, is_Some (group_key r)) rs) ∧
  pivot_index (fdf (view df st)) = current_cities (view df st) ∧
  qtotal (pivot_long (fdf (view df st))).*2 = nansum (CustomerCount <$> fdf (view df st)).
Proof.
  split_and!.
  - unfold pivot. apply Forall_fmap, Forall_forall. intros c _; simpl.
    by rewrite length_fmap.
  - unfold pivot. rewrite <-list_fmap_compose. apply list_fmap_id.
  - apply pivot_long_alt.
  - rewrite pivot_long_alt.
    rewrite (length_join_const _ (length (pivot_index rs))), length_fmap; [done|].
    apply Forall_fmap, Forall_forall. intros k _; simpl. by rewrite length_fmap.
  - apply pivot_cell_total.
  - intros c k Hno. unfold pivot_cell. case_decide as Hin; [|done].
    destruct Hno. apply elem_of_group_keys in Hin as (r & Hr & Hk).
    apply group_key_Some in Hk. naive_solver.
  - intros [[c k] x] Hin. unfold treemap_df in Hin.
    apply list_elem_of_fmap in Hin as (ck & Heq & Hck). simplify_eq.
    rewrite pivot_long_alt. apply list_elem_of_join.
    exists ((λ c', (c', k, pivot_cell rs c' k)) <$> pivot_index rs). split.
    + apply list_elem_of_fmap. exists c. split; [by rewrite pivot_cell_total|].
      apply elem_of_pivot_index. eauto.
    + apply list_elem_of_fmap. exists k. split; [done|].
      apply elem_of_pivot_columns. eauto.
  - apply pivot_sum.
  - rewrite pivot_index_keyed.
    + symmetry. apply (current_cities_sorted_aux (fdf_base df st) st).
    + eapply Forall_impl; [apply view_rows_keyed|]. by intros r [_ ?] _.
  - rewrite pivot_sum. do 2 f_equal. apply filter_all, view_rows_group_keyed.
Qed.

(** ** Radar traces *)

Lemma default_choices_subseteq pn : default_choices pn ⊆ Prof.CustLocation <$> pn.
Proof.
  unfold default_choices. intros c (p & -> & Hp)%list_elem_of_fmap.
  apply list_elem_of_fmap. exists p. split; [done|].
  rewrite <-(sort_values_desc_Permutation Prof.AvgTotalMonetary pn).
  eapply sublist_elem_of; [apply sublist_take|done].
Qed.

Lemma radar_row_found pn city :
  city ∈ Prof.CustLocation <$> pn →
  ∃ p, p ∈ pn ∧ Prof.CustLocation p = city ∧
       radar_row pn city =
         Some [Prof.AvgFrequency p; Prof.AvgTotalMonetary p; Prof.AvgRecency p;
               Prof.AvgFrequency p].
Proof.
  intros (p & -> & Hp)%list_elem_of_fmap. unfold radar_row.
  destruct (filter (λ q, Prof.CustLocation q = Prof.CustLocation p) pn) as [|q qs] eqn:E.
  - exfalso. eapply (filter_nil_not_elem_of _ _ p); [exact E| |]; done.
  - assert (q ∈ filter (λ q, Prof.CustLocation q = Prof.CustLocation p) pn) as Hq
      by (rewrite E; by left).
    apply list_elem_of_filter in Hq as [Hq1 Hq2]. by exists q.
Qed.

Lemma radar_row_missing pn city :
  city ∉ Prof.CustLocation <$> pn → radar_row pn city = None.
Proof.
  intros Hno. unfold radar_row. rewrite filter_none; [done|].
  apply Forall_forall. intros p Hp Hc. apply Hno, list_elem_of_fmap. eauto.
Qed.

Lemma radar_rows_found pn (cities : list string) :
  cities ⊆ Prof.CustLocation <$> pn →
  ∃ traces,
    mapM (λ city, (λ values, (city, values)) <$> radar_row pn city) cities = Some traces ∧
    traces.*1 = cities ∧
    Forall (λ t, ∃ p, p ∈ pn ∧ Prof.CustLocation p = t.1 ∧
                      t.2 = [Prof.AvgFrequency p; Prof.AvgTotalMonetary p;
                             Prof.AvgRecency p; Prof.AvgFrequency p]) traces.
Proof.
  induction cities as [|city cities IH]; intros Hsub.
  { exists []. by repeat split. }
  assert (cities ⊆ Prof.CustLocation <$> pn) as Hrest.
  { intros c Hc. apply Hsub. by right. }
  destruct (IH Hrest) as (traces & Htraces & Hnames & Hall).
  assert (city ∈ Prof.CustLocation <$> pn) as Hcity.
  { apply Hsub. by left. }
  destruct (radar_row_found pn city Hcity) as (p & Hp & Hc & Hrow).
  exists ((city, [Prof.AvgFrequency p; Prof.AvgTotalMonetary p;
                  Prof.AvgRecency p; Prof.AvgFrequency p]) :: traces).
  split_and!.
  - cbn [mapM]. rewrite Hrow; simpl. by rewrite Htraces.
  - rewrite fmap_cons. by rewrite Hnames.
  - constructor; [|done]. by exists p.
Qed.

(** The radar chart draws without a lookup failure whenever the cities picked
    are among those offered, and always when nothing is picked: then the
    default choice is drawn, the three cities (or all, if fewer) with the
    highest normalised spend.  Each trace is the city's three normalised
    values closed by the first one.  A city that is not in the profile
    would make the lookup fail. *)
Theorem radar_draws_the_picked_cities (pn : list Prof.t) (entry : list string) :
  entry ⊆ Prof.CustLocation <$> pn →
  (∃ traces,
     radar_traces pn entry = Some traces ∧
     traces.*1 = (if decide (entry = []) then default_choices pn else entry) ∧
     Forall (λ t, ∃ p, p ∈ pn ∧ Prof.CustLocation p = t.1 ∧
                       t.2 = [Prof.AvgFrequency p; Prof.AvgTotalMonetary p;
                              Prof.AvgRecency p; Prof.AvgFrequency p]) traces) ∧
  length (default_choices pn) = Nat.min 3 (length pn) ∧
  default_choices pn ⊆ Prof.CustLocation <$> pn ∧
  (∀ city, city ∉ Prof.CustLocation <$> pn → radar_traces pn [city] = None).
Proof.
  intros Hentry.
  assert (pick pn entry ⊆ Prof.CustLocation <$> pn) as Hpick.
  { destruct entry; [apply default_choices_subseteq|done]. }
  assert (pick pn entry = if decide (entry = []) then default_choices pn else entry)
    as Hpick_eq by (by destruct entry).
  split_and!.
  - unfold radar_traces. rewrite <-Hpick_eq. by apply radar_rows_found.
  - unfold default_choices.
    by rewrite length_fmap, length_take, sort_values_desc_Permutation.
  - apply default_choices_subseteq.
  - intros city Hno. unfold radar_traces; simpl.
    by rewrite (radar_row_missing pn city Hno).
Qed.

End Views.

Lemma radar_draws_the_picked_cities_witness :
  is_Some (radar_traces (np := stable_half_even)
             (prof_norm (city_profile (rows tied_cities))) ["B"; "D"]).
Proof.
  assert (["B"; "D"] ⊆ Prof.CustLocation <$> prof_norm (city_profile (rows tied_cities)))
    as H.
  { apply (bool_decide_unpack _). by vm_compute. }
  destruct (radar_draws_the_picked_cities (np := stable_half_even) _ _ H)
    as [(traces & Ht & _) _].
  rewrite Ht. by eexists.
Defined.

Section Reports.
Context {np : Numerics}.

(** ** Strategy text *)

Lemma string_app_assoc (a b c : string) : (a +:+ b) +:+ c = a +:+ (b +:+ c).
Proof.
  induction a as [|x a IH]; [done|].
  change (String x ((a +:+ b) +:+ c) = String x (a +:+ (b +:+ c))). by rewrite IH.
Qed.

Lemma string_app_nil_r (a : string) : a +:+ "" = a.
Proof.
  induction a as [|x a IH]; [done|].
  change (String x (a +:+ "") = String x a). by rewrite IH.
Qed.

Lemma join_cons sep x parts : ∃ tail, join sep (x :: parts) = x +:+ tail.
Proof.
  destruct parts as [|y parts].
  - exists "". by rewrite string_app_nil_r.
  - by exists (sep +:+ join sep (y :: parts)).
Qed.

Lemma length_recs summary : length (recs summary) = length summary.
Proof.
  destruct summary as [|s summary]; [done|]. unfold recs.
  by rewrite length_fmap, sort_values_desc_Permutation.
Qed.

Lemma length_seg_summary rs : length (seg_summary rs) = length (clusters_of rs).
Proof. unfold seg_summary. apply length_fmap. Qed.

Lemma strategy_markdown_cons s rest :
  ∃ tail, strategy_markdown (s :: rest) =
          "- **Cluster " +:+ pretty (cid s) +:+ "**: " +:+ bucket_text (tag s) +:+ tail.
Proof.
  unfold strategy_markdown. rewrite fmap_cons.
  destruct (join_cons newline ("- " +:+ suggestion_text s)
              ((λ r, "- " +:+ suggestion_text r) <$> rest)) as [tail ->].
  exists tail. unfold suggestion_text.
  rewrite decide_False by done.
  by rewrite !string_app_assoc.
Qed.

(** The strategy section shows "No segments in current filter." exactly when
    the page view has no rows.  Otherwise it lists one suggestion per
    cluster of the view, and the text opens with the bullet of the first
    suggestion: its cluster number in decimal, then its sentence. *)
Theorem strategy_text_falls_back_on_an_empty_view (df : DataFrame) (st : FilterState) :
  let d := render df st in
  (strategy_markdown (strategy d) = "No segments in current filter."
   ↔ fdf (shown d) = []) ∧
  length (strategy d) = length (clusters_of (fdf (shown d))) ∧
  ∀ s rest, strategy d = s :: rest →
    ∃ tail, strategy_markdown (strategy d) =
            "- **Cluster " +:+ pretty (cid s) +:+ "**: " +:+ bucket_text (tag s) +:+ tail.
Proof.
  intros d. subst d. unfold render; cbn [strategy shown].
  set (rs := fdf (view df st)).
  assert (length (recs (seg_summary rs)) = length (clusters_of rs)) as Hlen.
  { by rewrite length_recs, length_seg_summary. }
  split_and!; [|done|].
  - split.
    + intros Htext. destruct rs as [|r rs'] eqn:E; [done|]. exfalso.
      destruct (recs (seg_summary (r :: rs'))) as [|s rest] eqn:Erecs.
      * assert (is_Some (Cluster r)) as [k Hk].
        { pose proof (view_rows_keyed df st) as Hall. fold rs in Hall.
          rewrite E in Hall. apply Forall_cons_1 in Hall as [[_ ?] _]. done. }
        assert (k ∈ clusters_of (r :: rs')) as Hin.
        { apply elem_of_clusters_of. exists r. split; [by left|done]. }
        destruct (clusters_of (r :: rs')); [by apply elem_of_nil in Hin|done].
      * destruct (strategy_markdown_cons s rest) as [tail Htail].
        rewrite Htail in Htext. done.
    + intros ->. done.
  - intros s rest ->. apply strategy_markdown_cons.
Qed.

(** ** The first suggestion *)

Lemma Qc_mean_le a b x : (a ≤ x)%Qc → (b ≤ x)%Qc → ((a + b) / num 2 ≤ x)%Qc.
Proof.
  intros Ha Hb. qc_to_q. change (inject_Z 2) with (2 # 1)%Q.
  change (/ (2 # 1))%Q with (1 # 2)%Q. lra.
Qed.

Lemma median_le_bound col x0 m :
  (∀ y, Some y ∈ col → (y ≤ x0)%Qc) → median col = Some m → (m ≤ x0)%Qc.
Proof.
  intros Hub Hm. destruct (median_is_median col) as (s & Hperm & _ & Hmid).
  assert (∀ y, y ∈ s → (y ≤ x0)%Qc) as Hs.
  { intros y Hy. apply Hub, elem_of_dropna. by rewrite <-Hperm. }
  cbv zeta in Hmid. rewrite Hm in Hmid.
  destruct (decide (length s = 0)); [done|].
  destruct (Nat.even (length s)).
  - destruct Hmid as (a & b & Ha%list_elem_of_lookup_2 & Hb%list_elem_of_lookup_2 & [= ->]).
    apply Qc_mean_le; auto.
  - destruct Hmid as (a & Ha%list_elem_of_lookup_2 & [= ->]). auto.
Qed.

Lemma median_is_Some col x : Some x ∈ col → is_Some (median col).
Proof.
  intros Hx. destruct (median_is_median col) as (s & Hperm & _ & Hmid).
  cbv zeta in Hmid. destruct (decide (length s = 0)) as [Hz|_].
  - apply elem_of_dropna in Hx. rewrite <-Hperm in Hx.
    destruct s; [by apply elem_of_nil in Hx|done].
  - destruct (Nat.even (length s)).
    + destruct Hmid as (a & b & _ & _ & ->). by eexists.
    + destruct Hmid as (a & _ & ->). by eexists.
Qed.

Lemma median_all_missing col : (∀ v, v ∈ col → v = None) → median col = None.
Proof.
  intros Hall. destruct (median col) as [m|] eqn:E; [|done].
  destruct (median_is_median col) as (s & Hperm & _ & Hmid).
  assert (dropna col = []) as Hnil.
  { destruct (dropna col) as [|x xs] eqn:Ex; [done|].
    assert (Some x ∈ col) as Hx by (apply elem_of_dropna; rewrite Ex; by left).
    by apply Hall in Hx. }
  rewrite Hnil in Hperm. apply Permutation_nil_r in Hperm as ->.
  cbv zeta in Hmid. by rewrite E in Hmid.
Qed.

(** The first suggestion is for the cluster with the highest spend, and that
    cluster is never told it spends little: when any line of the summary has
    an AvgTotalMonetary, the first line of the descending order has one, it
    is at least the median, and the first suggestion is "premium" or
    "value-add".  When no line has one, every suggestion is "cross-sell" or
    "re-engagement". *)
Theorem first_suggestion_is_for_a_high_spender (first : Seg.t) (others : list Seg.t) :
  let summary := first :: others in
  ∃ row rows' s rest,
    sort_values_desc Seg.AvgTotalMonetary summary = row :: rows' ∧
    recs summary = s :: rest ∧
    cid s = Seg.Cluster row ∧
    (∀ r, r ∈ summary → key_before Seg.AvgTotalMonetary row r) ∧
    (is_Some (Seg.AvgTotalMonetary row) ↔
       ∃ r, r ∈ summary ∧ is_Some (Seg.AvgTotalMonetary r)) ∧
    (is_Some (Seg.AvgTotalMonetary row) → tag s = Premium ∨ tag s = ValueAdd) ∧
    ((∀ r, r ∈ summary → Seg.AvgTotalMonetary r = None) →
       ∀ s', s' ∈ recs summary → tag s' = CrossSell ∨ tag s' = ReEngagement).
Proof.
  intros summary.
  set (med_spend := median (Seg.AvgTotalMonetary <$> summary)).
  set (med_freq := median (Seg.AvgFrequency <$> summary)).
  pose proof (sort_values_desc_Permutation Seg.AvgTotalMonetary summary) as Hperm.
  pose proof (sort_values_desc_sorted Seg.AvgTotalMonetary summary) as Hsorted.
  assert (recs summary = classify med_spend med_freq
                           <$> sort_values_desc Seg.AvgTotalMonetary summary) as Hrecs by done.
  destruct (sort_values_desc Seg.AvgTotalMonetary summary) as [|row rows'] eqn:E.
  { by apply Permutation_nil_l in Hperm. }
  apply StronglySorted_cons in Hsorted as [Hfirst _]. rewrite Forall_forall in Hfirst.
  assert (∀ r, r ∈ summary → key_before Seg.AvgTotalMonetary row r) as Hbefore.
  { intros r Hr. rewrite <-Hperm in Hr. apply elem_of_cons in Hr as [->|Hr]; [|auto].
    unfold key_before. destruct (Seg.AvgTotalMonetary row); [apply Qcle_refl|done]. }
  exists row, rows', (classify med_spend med_freq row),
    (classify med_spend med_freq <$> rows').
  split_and!; [done|done|done|done| | |].
  - split.
    + intros Hrow. exists row. split; [|done]. rewrite <-Hperm. by left.
    + intros (r & Hr & [y Hy]). specialize (Hbefore r Hr).
      unfold key_before in Hbefore. rewrite Hy in Hbefore.
      destruct (Seg.AvgTotalMonetary row); [by eexists|done].
  - intros [x0 Hx0].
    assert (Some x0 ∈ Seg.AvgTotalMonetary <$> summary) as Hin.
    { apply list_elem_of_fmap. exists row. split; [done|]. rewrite <-Hperm. by left. }
    destruct (median_is_Some _ _ Hin) as [m Hm]. fold med_spend in Hm.
    assert (m ≤ x0)%Qc as Hle.
    { apply (median_le_bound (Seg.AvgTotalMonetary <$> summary)); [|done].
      intros y (r & Hy & Hr)%list_elem_of_fmap. specialize (Hbefore r Hr).
      unfold key_before in Hbefore. by rewrite <-Hy, Hx0 in Hbefore. }
    unfold classify; cbn [tag]. rewrite Hx0, Hm. cbn [cell_ge].
    rewrite bool_decide_true by done. simpl.
    destruct (cell_ge (Seg.AvgFrequency row) med_freq); auto.
  - intros Hnone s' Hs'. rewrite Hrecs in Hs'.
    apply list_elem_of_fmap in Hs' as (r & -> & Hr).
    unfold classify; cbn [tag]. rewrite (Hnone r) by (by rewrite <-Hperm).
    simpl. destruct (cell_ge (Seg.AvgFrequency r) med_freq); auto.
Qed.

(** ** Data preview *)

Section OptOrder.
Context {A : Type} (R : relation A) `{!PartialOrder R}.

Global Instance opt_le_trans : Transitive (opt_le R).
Proof.
  intros [x|] [y|] [z|]; simpl; try done. apply transitivity.
Qed.

Lemma opt_le_antisym a b : opt_le R a b → opt_le R b a → a = b.
Proof.
  destruct a as [x|], b as [y|]; simpl; try done.
  intros ??. f_equal. by apply (anti_symm R).
Qed.
End OptOrder.

Lemma opt_compare_string_cases a b :
  match opt_compare String.compare a b with
  | Lt => opt_le String.le a b ∧ a ≠ b
  | Eq => a = b
  | Gt => opt_le String.le b a ∧ a ≠ b
  end.
Proof.
  destruct a as [x|], b as [y|]; simpl; try done.
  pose proof (string_compare_cases x y) as H.
  destruct (String.compare x y); [by f_equal|..];
    (destruct H as [? Hne]; split; [done|]; by intros [= ->]).
Qed.

Lemma opt_compare_Z_cases a b :
  match opt_compare Z.compare a b with
  | Lt => opt_le Z.le a b
  | Eq => opt_le Z.le a b ∧ opt_le Z.le b a
  | Gt => opt_le Z.le b a
  end.
Proof.
  destruct a as [x|], b as [y|]; simpl; try done.
  destruct (Z.compare_spec x y); lia.
Qed.

Global Instance row_le_trans : Transitive row_le.
Proof.
  intros a b c [Hab Hab'] [Hbc Hbc']. split; [by trans (CustLocation b)|].
  intros Hac. rewrite Hac in Hab.
  assert (CustLocation b = CustLocation c) as Hb
    by (by apply (opt_le_antisym String.le)).
  assert (CustLocation a = CustLocation b) as Ha by congruence.
  by trans (Cluster b); auto.
Qed.

Lemma row_leb_decides a b : decides row_leb row_le a b.
Proof.
  unfold decides, row_leb, row_le.
  pose proof (opt_compare_string_cases (CustLocation a) (CustLocation b)) as Hc.
  pose proof (opt_compare_Z_cases (Cluster a) (Cluster b)) as Hk.
  destruct (opt_compare String.compare (CustLocation a) (CustLocation b)).
  - rewrite Hc.
    assert (opt_le String.le (CustLocation b) (CustLocation b)) as Hrefl.
    { destruct (CustLocation b); simpl; [reflexivity|done]. }
    destruct (opt_compare Z.compare (Cluster a) (Cluster b));
      split; try done; intros _; tauto.
  - destruct Hc as [? Hne]. split; [done|]. by intros ?.
  - destruct Hc as [? Hne]. split; [done|]. by intros ?.
Qed.

(** "Filtered Data Preview" shows the rows the download holds, rearranged:
    ordered by city and, within a city, by cluster.  On the page view every
    row has both keys, so the order is the plain one on (city, cluster). *)
Theorem preview_is_the_download_sorted (df : DataFrame) (st : FilterState) (rs : list Row) :
  preview rs ≡ₚ rs ∧
  StronglySorted row_le (preview rs) ∧
  preview (fdf (view df st)) ≡ₚ records (csv df st) ∧
  StronglySorted
    (λ r1 r2, ∃ c1 k1 c2 k2,
        group_key r1 = Some (c1, k1) ∧ group_key r2 = Some (c2, k2) ∧
        pair_le (c1, k1) (c2, k2))
    (preview (fdf (view df st))).
Proof.
  assert (∀ l, StronglySorted row_le (preview l)) as Hsorted.
  { intros l. apply stable_sort_total; [apply _|apply row_leb_decides]. }
  split_and!.
  - apply stable_sort_Permutation.
  - apply Hsorted.
  - apply stable_sort_Permutation.
  - eapply StronglySorted_mono; [|apply Hsorted].
    intros r1 r2 Hr1 Hr2 [Hc Hk].
    pose proof (view_rows_group_keyed df st) as Hall. rewrite Forall_forall in Hall.
    unfold preview in Hr1, Hr2. rewrite elem_of_stable_sort in Hr1, Hr2.
    destruct (Hall r1 Hr1) as [[c1 k1] H1], (Hall r2 Hr2) as [[c2 k2] H2].
    exists c1, k1, c2, k2. split_and!; [done|done|].
    apply group_key_Some in H1 as [H1c H1k], H2 as [H2c H2k].
    rewrite H1c, H2c in Hc, Hk. rewrite H1k, H2k in Hk.
    split; [exact Hc|]. cbn. intros Heq. apply Hk. by rewrite Heq.
Qed.

(** ** Averages per city *)

Lemma nanmean_is_Some (col : list cell) : is_Some (nanmean col) ↔ ∃ x, Some x ∈ col.
Proof.
  unfold nanmean. destruct (dropna col) as [|x xs] eqn:E.
  - split; [by intros [? ?]|]. intros [x Hx%elem_of_dropna].
    rewrite E in Hx. by apply elem_of_nil in Hx.
  - split; [|by eexists]. intros _. exists x. apply elem_of_dropna.
    rewrite E. by left.
Qed.

(** Every average drawn for a city (the radar's three metrics, the four lines
    of "Average Metrics by City") is taken over that city's rows of the view,
    of which there is at least one, and it is missing exactly when every one
    of those rows lacks the value.  Both tables list the cities of the rows,
    each once, in ascending order. *)
Theorem city_averages_are_missing_only_without_values (rs : list Row) :
  Forall (λ p,
      let g := filter (λ r, in_city (Prof.CustLocation p) r) rs in
      g ≠ [] ∧
      (is_Some (Prof.AvgFrequency p) ↔ ∃ x, Some x ∈ AvgFrequency <$> g) ∧
      (is_Some (Prof.AvgTotalMonetary p) ↔ ∃ x, Some x ∈ AvgTotalMonetary <$> g) ∧
      (is_Some (Prof.AvgRecency p) ↔ ∃ x, Some x ∈ AvgRecency <$> g))
    (city_profile rs) ∧
  Forall (λ line,
      let g := filter (λ r, in_city line.1 r) rs in
      ∃ age freq spend recency,
        line.2 = [age; freq; spend; recency] ∧
        (is_Some age ↔ ∃ x, Some x ∈ AvgAge <$> g) ∧
        (is_Some freq ↔ ∃ x, Some x ∈ AvgFrequency <$> g) ∧
        (is_Some spend ↔ ∃ x, Some x ∈ AvgTotalMonetary <$> g) ∧
        (is_Some recency ↔ ∃ x, Some x ∈ AvgRecency <$> g))
    (avg_metrics rs) ∧
  Prof.CustLocation <$> city_profile rs = candidate_cities rs ∧
  fst <$> avg_metrics rs = candidate_cities rs ∧
  StronglySorted String.le (candidate_cities rs) ∧ NoDup (candidate_cities rs).
Proof.
  split_and!.
  - unfold city_profile. apply Forall_fmap, Forall_forall. intros c Hc. simpl.
    split_and!; try apply nanmean_is_Some.
    unfold sorted_str in Hc. rewrite elem_of_stable_sort in Hc.
    apply elem_of_cities_of in Hc as (r & Hr & Hcity).
    intros Hnil. assert (r ∈ filter (λ r, in_city c r) rs) as Hin
      by (apply list_elem_of_filter; split;
            [by apply Is_true_true, bool_decide_eq_true|done]).
    rewrite Hnil in Hin. by apply elem_of_nil in Hin.
  - unfold avg_metrics. apply Forall_fmap, Forall_forall. intros c _. simpl.
    eexists _, _, _, _. split_and!; [done|apply nanmean_is_Some..].
  - unfold city_profile, candidate_cities. rewrite <-list_fmap_compose.
    apply list_fmap_id.
  - unfold avg_metrics, candidate_cities. rewrite <-list_fmap_compose.
    apply list_fmap_id.
  - apply candidate_cities_sorted.
  - apply NoDup_candidate_cities.
Qed.

(** ** KPI counts, banner and required columns *)

(** The "Cities" and "Segments" KPIs count the options the two sidebar
    multiselects offer.  No view shows more cities than the first, and the
    segment table and the strategy list never have more lines than the
    second. *)
Theorem kpi_counts_are_the_sidebar_options (df : DataFrame) (st : FilterState) :
  kpi_cities (render df st) = length (all_cities df) ∧
  kpi_segments (render df st) = length (all_clusters df) ∧
  current_cities (view df st) ⊆ all_cities df ∧
  length (current_cities (view df st)) ≤ kpi_cities (render df st) ∧
  length (segments (render df st)) ≤ kpi_segments (render df st) ∧
  length (strategy (render df st)) ≤ kpi_segments (render df st).
Proof.
  cbn [render kpi_cities kpi_segments segments strategy].
  assert (city_count df = length (all_cities df)) as Hc.
  { unfold city_count, all_cities, sorted_str. by rewrite length_stable_sort. }
  assert (segment_count df = length (all_clusters df)) as Hk.
  { unfold segment_count, all_clusters, sorted_Z. by rewrite length_stable_sort. }
  destruct (current_cities_sorted_aux (fdf_base df st) st) as [Hcur Hlen].
  fold (view df st) in Hcur, Hlen.
  assert (cities_of (fdf (view df st)) ⊆ cities_of (rows df)) as Hsub.
  { intros c (r & [Hr _]%view_selected & Hcity)%elem_of_cities_of.
    apply elem_of_cities_of. by exists r. }
  assert (clusters_of (fdf (view df st)) ⊆ clusters_of (rows df)) as Hsubk.
  { intros k (r & [Hr _]%view_selected & Hcl)%elem_of_clusters_of.
    apply elem_of_clusters_of. by exists r. }
  assert (length (clusters_of (fdf (view df st))) ≤ segment_count df) as Hsegs.
  { rewrite Hk. apply NoDup_subseteq_length; [apply NoDup_clusters_of|done]. }
  split_and!; [done|done|..].
  - rewrite Hcur. unfold all_cities, sorted_str. intros c.
    rewrite !elem_of_stable_sort. apply Hsub.
  - rewrite Hlen. unfold city_count. fold (cities_of (rows df)).
    apply NoDup_subseteq_length; [apply NoDup_cities_of|done].
  - by rewrite length_seg_summary.
  - by rewrite length_recs, length_seg_summary.
Qed.

Lemma head_filter_Some {A} (P : A → Prop) `{!∀ x, Decision (P x)} (l : list A) x :
  head (filter P l) = Some x ↔
  ∃ before after, l = before ++ x :: after ∧ P x ∧ Forall (λ y, ¬ P y) before.
Proof.
  induction l as [|y l IH].
  - split; [done|]. intros (before & after & Heq & _). by destruct before.
  - rewrite filter_cons. case_decide as Hy.
    + simpl. split.
      * intros [= ->]. by exists [], l.
      * intros ([|z before] & after & Heq & Hx & Hbefore); simplify_eq/=; [done|].
        by apply Forall_cons in Hbefore as [? _].
    + rewrite IH. split.
      * intros (before & after & -> & Hx & Hbefore).
        exists (y :: before), after. by split_and!; [|  |constructor].
      * intros ([|z before] & after & Heq & Hx & Hbefore); simplify_eq/=; [done|].
        apply Forall_cons in Hbefore as [_ ?]. by exists before, after.
Qed.

Lemma filter_nil_Forall {A} (P : A → Prop) `{!∀ x, Decision (P x)} (l : list A) :
  filter P l = [] ↔ Forall (λ x, ¬ P x) l.
Proof.
  induction l as [|y l IH]; [by split|].
  rewrite filter_cons, Forall_cons. case_decide; [|by rewrite IH; tauto].
  split; [done|tauto].
Qed.

(** The banner is the first candidate, in the order of the list, that is on
    disk: no candidate written before it exists.  There is no banner only
    when none of the five files exists. *)
Theorem banner_is_the_first_candidate_on_disk (file_exists : string → bool) :
  (∀ p, banner_path file_exists = Some p ↔
     ∃ before after, BANNER_CANDIDATES = before ++ p :: after ∧
       file_exists p = true ∧ Forall (λ q, file_exists q = false) before) ∧
  (banner_path file_exists = None ↔
     Forall (λ q, file_exists q = false) BANNER_CANDIDATES).
Proof.
  assert (∀ l, Forall (λ q, ¬ file_exists q) l ↔ Forall (λ q, file_exists q = false) l)
    as Hnot.
  { intros l. apply Forall_proper; [|done]. intros q.
    rewrite Is_true_true. by destruct (file_exists q). }
  unfold banner_path. split.
  - intros p. rewrite head_filter_Some.
    split; intros (before & after & Heq & Hp & Hbefore); exists before, after;
      (split_and!; [done|by apply Is_true_true|by apply Hnot]).
  - by rewrite head_None, filter_nil_Forall, Hnot.
Qed.

(** The dashboard stops at the load exactly when a required column is
    absent, and it names the absent ones in the order of [required_cols].
    When it goes on, the six required metrics are among the columns coerced
    to numbers, and the two key columns never are. *)
Theorem load_checks_and_coerces_the_metrics (df : DataFrame) :
  (missing df = [] ↔ required_cols ⊆ columns df) ∧
  (missing df `sublist_of` required_cols) ∧
  (∀ c, c ∈ missing df ↔ c ∈ required_cols ∧ c ∉ columns df) ∧
  (missing df = [] →
     ["CustomerCount"; "AvgAge"; "AvgRecency"; "AvgFrequency"; "AvgAvgMonetary";
      "AvgTotalMonetary"] ⊆ num_cols df) ∧
  ("CustLocation" ∉ num_cols df) ∧ ("Cluster" ∉ num_cols df).
Proof.
  assert (missing df = [] ↔ required_cols ⊆ columns df) as Hm.
  { unfold missing. rewrite filter_nil_Forall, Forall_forall.
    split; intros H c Hc; specialize (H c Hc); [|tauto].
    by destruct (decide (c ∈ columns df)). }
  split_and!; [done|apply sublist_filter|..].
  - intros c. unfold missing. rewrite list_elem_of_filter. tauto.
  - intros Hnone%Hm c Hc. unfold num_cols. apply list_elem_of_filter.
    repeat (apply elem_of_cons in Hc as [->|Hc]); [..|by apply elem_of_nil in Hc];
      (split; [|apply Hnone]); apply (bool_decide_unpack _); by vm_compute.
  - unfold num_cols. rewrite list_elem_of_filter. intros [H _]. apply H.
    apply (bool_decide_unpack _). by vm_compute.
  - unfold num_cols. rewrite list_elem_of_filter. intros [H _]. apply H.
    apply (bool_decide_unpack _). by vm_compute.
Qed.

End Reports.
